(** * Block bootstrap of ABBA/BABA site patterns

    A shallow embedding of [supp_analyses/bootstrap_sequencing_errors.py]:
    the derived allele frequency of a lineage, the six site-pattern sums and
    the block-bootstrap driver that resamples the genome in 100 kb windows.

    The Python code is written against numpy arrays and is agnostic of the
    element type.  The embedding keeps that: the three functions are written
    once over a [Scalar] interface, which is then instantiated with the
    rationals (exact arithmetic) and with binary64 floating-point numbers
    (what numpy really computes with). *)

From Stdlib Require Import List ZArith QArith Lqa Lia Bool Permutation.
From Stdlib Require Import Uint63 PrimFloat FloatOps FloatAxioms.
From Stdlib Require Ascii String DecimalString DecimalPos DecimalZ.
Import ListNotations.

Close Scope Q_scope.

(** ** Scalars *)

Declare Scope scalar_scope.
Delimit Scope scalar_scope with S.

Class Scalar (A : Type) : Type := {
  zero : A;
  one : A;
  add : A -> A -> A;
  sub : A -> A -> A;
  mul : A -> A -> A;
  div : A -> A -> A;
  (* [float(len(taxon))]: a length as a scalar *)
  of_len : nat -> A
}.

Infix "+" := add : scalar_scope.
Infix "-" := sub : scalar_scope.
Infix "*" := mul : scalar_scope.
Infix "/" := div : scalar_scope.

(** Exact arithmetic.  Division by zero is [0] in [Q] whereas numpy yields
    [nan]; the statements about this instance therefore ask for a non-empty
    lineage wherever a division takes place. *)
#[export] Instance Q_scalar : Scalar Q := {
  zero := 0%Q;
  one := 1%Q;
  add := Qplus;
  sub := Qminus;
  mul := Qmult;
  div := Qdiv;
  of_len := fun n => inject_Z (Z.of_nat n)
}.

(** IEEE 754 binary64, the [float64] of numpy. *)
#[export] Instance float_scalar : Scalar float := {
  zero := 0%float;
  one := 1%float;
  add := PrimFloat.add;
  sub := PrimFloat.sub;
  mul := PrimFloat.mul;
  div := PrimFloat.div;
  of_len := fun n => PrimFloat.of_uint63 (Uint63.of_Z (Z.of_nat n))
}.

(** ** Exceptions *)

Inductive exn : Set :=
| IndexError   (* an index out of bounds for its axis *)
| ValueError.  (* arrays whose shapes do not fit *)

Inductive result (A : Type) : Type :=
| Ok (a : A)
| Raise (e : exn).

Arguments Ok {A} a.
Arguments Raise {A} e.

Definition bind {A B : Type} (c : result A) (k : A -> result B) : result B :=
  match c with
  | Ok a => k a
  | Raise e => Raise e
  end.

Notation "x <- c ;; k" := (bind c (fun x => k))
  (at level 61, c at next level, right associativity).
Notation "' p <- c ;; k" := (bind c (fun x => let 'p := x in k))
  (at level 61, p pattern, c at next level, right associativity).

Fixpoint mapM {A B : Type} (f : A -> result B) (l : list A) : result (list B) :=
  match l with
  | [] => Ok []
  | x :: l' => y <- f x ;; ys <- mapM f l' ;; Ok (y :: ys)
  end.

(** ** The numpy operations the program uses *)

Module Np.

(** A two-dimensional array: its rows, and the second component of its
    shape, which an array keeps even when it has no row. *)
Record ndarray2 (A : Type) : Type := mk {
  ncols : nat;
  rows : list (list A)
}.

Arguments mk {A} ncols rows.
Arguments ncols {A} n.
Arguments rows {A} n.

Definition nrows {A : Type} (m : ndarray2 A) : nat := length (rows m).

(** Every row has as many entries as the shape says. *)
Definition wf {A : Type} (m : ndarray2 A) : Prop :=
  Forall (fun r => length r = ncols m) (rows m).

(** An index into an axis of size [n]: [-n <= i < n], negative ones count
    from the end.  This is numpy's rule for an index that it reads as a
    signed 64-bit integer; a list that holds a number beyond that range is
    turned into an unsigned or an object array and is indexed otherwise. *)
Definition normalize_index (n : nat) (i : Z) : result nat :=
  if ((0 <=? i) && (i <? Z.of_nat n))%Z then Ok (Z.to_nat i)
  else if ((- Z.of_nat n <=? i) && (i <? 0))%Z then Ok (Z.to_nat (i + Z.of_nat n))
  else Raise IndexError.

Section Ops.
Context {A : Type} `{Scalar A}.

(** [m[:, idx]]: the indices are checked against the shape; in a
    well-formed array every row then has the entry. *)
Definition take_cols (m : ndarray2 A) (idx : list Z) : result (ndarray2 A) :=
  js <- mapM (normalize_index (ncols m)) idx ;;
  Ok (mk (length idx) (map (fun r => map (fun j => nth j r zero) js) (rows m))).

(** [m[idx, :]] *)
Definition take_rows (m : ndarray2 A) (idx : list Z) : result (ndarray2 A) :=
  rs <- mapM (fun i => k <- normalize_index (nrows m) i ;;
                       match nth_error (rows m) k with
                       | Some r => Ok r
                       | None => Raise IndexError
                       end) idx ;;
  Ok (mk (ncols m) rs).

(** [v.sum()]: numpy starts from zero and adds the entries of a short
    vector one by one, from left to right.  (Beyond eight entries it sums
    in blocks and in pairs; no statement below depends on that order except
    the binary64 example, which has three rows.) *)
Definition sum (v : list A) : A := fold_left add v zero.

(** [m.sum(axis=1)] *)
Definition sum_axis1 (m : ndarray2 A) : list A := map sum (rows m).

(** [v / c] *)
Definition div_scalar (v : list A) (c : A) : list A := map (fun x => (x / c)%S) v.

(** [c - v] *)
Definition rsub (c : A) (v : list A) : list A := map (fun x => (c - x)%S) v.

(** [v * w], for two vectors of one length, as the frequency vectors of one
    matrix are *)
Definition mul (v w : list A) : list A :=
  map (fun p => (fst p * snd p)%S) (combine v w).

(** [np.empty((0, c))] *)
Definition empty0 (c : nat) : ndarray2 A := mk c [].

(** [np.concatenate((a, b))] along the first axis *)
Definition concatenate (a b : ndarray2 A) : result (ndarray2 A) :=
  if Nat.eqb (ncols a) (ncols b) then Ok (mk (ncols a) (rows a ++ rows b))
  else Raise ValueError.

(** [np.append(v, x)] *)
Definition append (v : list A) (x : A) : list A := v ++ [x].

End Ops.

(** [np.where((lo <= v) & (v <= hi))[0]] *)
Fixpoint where_between_from (i : Z) (lo hi : Z) (v : list Z) : list Z :=
  match v with
  | [] => []
  | p :: v' =>
      if ((lo <=? p) && (p <=? hi))%Z
      then i :: where_between_from (i + 1) lo hi v'
      else where_between_from (i + 1) lo hi v'
  end.

Definition where_between (lo hi : Z) (v : list Z) : list Z :=
  where_between_from 0 lo hi v.

End Np.

(** ** The program *)

Section Program.
Context {A : Type} `{Scalar A}.

Definition derived_allele_freq (genotype_matrix : Np.ndarray2 A) (taxon : list Z)
  : result (list A) :=
  sub_matrix <- Np.take_cols genotype_matrix taxon ;;
  let freq_array :=
    Np.div_scalar (Np.sum_axis1 sub_matrix) (of_len (length taxon)) in
  Ok freq_array.

Definition patterns : Type := (A * A * A * A * A * A)%type.

Definition site_patterns (genotype_matrix : Np.ndarray2 A)
  (p1_idx p2_idx p3_idx : list Z) : result patterns :=
  p1 <- derived_allele_freq genotype_matrix p1_idx ;;
  p2 <- derived_allele_freq genotype_matrix p2_idx ;;
  p3 <- derived_allele_freq genotype_matrix p3_idx ;;
  let abba := Np.sum (Np.mul (Np.mul (Np.rsub one p1) p2) p3) in
  let baba := Np.sum (Np.mul (Np.mul p1 (Np.rsub one p2)) p3) in
  let bbaa := Np.sum (Np.mul (Np.mul p1 p2) (Np.rsub one p3)) in
  let baaa := Np.sum (Np.mul (Np.mul p1 (Np.rsub one p2)) (Np.rsub one p3)) in
  let abaa := Np.sum (Np.mul (Np.mul (Np.rsub one p1) p2) (Np.rsub one p3)) in
  let aaba := Np.sum (Np.mul (Np.mul (Np.rsub one p1) (Np.rsub one p2)) p3) in
  Ok (abba, baba, bbaa, baaa, abaa, aaba).

(** [for _ in range(n): s = body(s)], stopping at the first exception. *)
Fixpoint for_range {S : Type} (n : nat) (body : S -> result S) (s : S) : result S :=
  match n with
  | O => Ok s
  | Datatypes.S n' => s' <- body s ;; for_range n' body s'
  end.

(** The six output arrays, in the order ABBA, BABA, BBAA, BAAA, ABAA, AABA. *)
Definition arrays : Type :=
  (list A * list A * list A * list A * list A * list A)%type.

Section Bootstrap.
(** The global random state of numpy, and [np.random.randint(high)], which
    draws from it an integer of [0, high). *)
Context {G : Type}.
Variable randint : Z -> G -> Z * G.

(** One pass of the loop over [j]: a window is drawn and its variants are
    added to the bootstrapped genome. *)
Definition window_step (genotype_matrix : Np.ndarray2 A) (variable_positions : list Z)
  (st : Np.ndarray2 A * G) : result (Np.ndarray2 A * G) :=
  let '(bootstrapped_genome, g) := st in
  let '(start, g) := randint 99900001 g in
  let end_ := (start + 100000)%Z in
  let variants := Np.where_between start end_ variable_positions in
  windowed_matrix <- Np.take_rows genotype_matrix variants ;;
  bootstrapped_genome <- Np.concatenate bootstrapped_genome windowed_matrix ;;
  Ok (bootstrapped_genome, g).

(** One pass of the loop over [i]: a bootstrapped genome of 1000 windows, and
    its site patterns appended to the six arrays. *)
Definition replicate_step (genotype_matrix : Np.ndarray2 A) (variable_positions : list Z)
  (st : arrays * G) : result (arrays * G) :=
  let '((abba_array, baba_array, bbaa_array, baaa_array, abaa_array, aaba_array), g) := st in
  '(bootstrapped_genome, g) <-
     for_range 1000 (window_step genotype_matrix variable_positions) (Np.empty0 3, g) ;;
  '(abba, baba, bbaa, baaa, abaa, aaba) <-
     site_patterns bootstrapped_genome [0%Z] [1%Z] [2%Z] ;;
  Ok ((Np.append abba_array abba, Np.append baba_array baba,
       Np.append bbaa_array bbaa, Np.append baaa_array baaa,
       Np.append abaa_array abaa, Np.append aaba_array aaba), g).

Definition genotype_matrix_bootstrap (genotype_matrix : Np.ndarray2 A)
  (variable_positions : list Z) (n_replicates : Z) (g : G) : result (arrays * G) :=
  for_range (Z.to_nat n_replicates)
    (replicate_step genotype_matrix variable_positions)
    (([], [], [], [], [], []), g).

End Bootstrap.
End Program.

(** ** What the specification says, in its own words *)

(** A valid index of a column, for a matrix of [n] columns. *)
Definition valid_col (n : nat) (j : Z) : Prop := (- Z.of_nat n <= j < Z.of_nat n)%Z.


Section Specification.
Context {A : Type} `{Scalar A}.

(** The genotype value of the individual in column [j] at a site. *)
Definition genotype (row : list A) (j : Z) : A :=
  match Np.normalize_index (length row) j with
  | Ok k => nth k row zero
  | Raise _ => zero
  end.

(** The sum of a lineage's genotype values at a site. *)
Definition lineage_sum (row : list A) (taxon : list Z) : A :=
  fold_left (fun acc j => (acc + genotype row j)%S) taxon zero.

(** The raw genotype column of one individual. *)
Definition column (m : Np.ndarray2 A) (j : Z) : list A :=
  map (fun row => genotype row j) (Np.rows m).

(** The sum over the sites [0 .. n-1] of a per-site term. *)
Definition site_sum (n : nat) (term : nat -> A) : A :=
  fold_left (fun acc i => (acc + term i)%S) (seq 0 n) zero.

(** The frequency of a lineage at site [i]. *)
Definition at_site (f : list A) (i : nat) : A := nth i f zero.

Definition ABBA (f1 f2 f3 : A) : A := ((one - f1) * f2 * f3)%S.
Definition BABA (f1 f2 f3 : A) : A := (f1 * (one - f2) * f3)%S.
Definition BBAA (f1 f2 f3 : A) : A := (f1 * f2 * (one - f3))%S.
Definition BAAA (f1 f2 f3 : A) : A := (f1 * (one - f2) * (one - f3))%S.
Definition ABAA (f1 f2 f3 : A) : A := ((one - f1) * f2 * (one - f3))%S.
Definition AABA (f1 f2 f3 : A) : A := ((one - f1) * (one - f2) * f3)%S.

(** A pattern summed over all the sites of the matrix. *)
Definition pattern_sum (n : nat) (pat : A -> A -> A -> A) (f1 f2 f3 : list A) : A :=
  site_sum n (fun i => pat (at_site f1 i) (at_site f2 i) (at_site f3 i)).

(** A row, paired with its position, lies in the closed window
    [start, start + 100000]. *)
Definition in_window (start : Z) (pr : Z * list A) : bool :=
  ((start <=? fst pr) && (fst pr <=? start + 100000))%Z.

(** The rows of the window that begins at [start], in their original order. *)
Definition window_rows (m : Np.ndarray2 A) (positions : list Z) (start : Z)
  : list (list A) :=
  map snd (filter (in_window start) (combine positions (Np.rows m))).

(** The resampled genome assembled from the windows at [starts]. *)
Definition resampled_genome (m : Np.ndarray2 A) (positions : list Z) (starts : list Z)
  : Np.ndarray2 A :=
  Np.mk 3 (flat_map (window_rows m positions) starts).

Section Draws.
Context {G : Type}.
Variable randint : Z -> G -> Z * G.

(** The window starts of one replicate: [n] successive draws. *)
Fixpoint draw_starts (n : nat) (g : G) : list Z * G :=
  match n with
  | O => ([], g)
  | S n' =>
      let '(start, g1) := randint 99900001 g in
      let '(starts, g2) := draw_starts n' g1 in
      (start :: starts, g2)
  end.

(** The window starts of [n] successive replicates, 1000 for each. *)
Fixpoint draw_replicates (n : nat) (g : G) : list (list Z) * G :=
  match n with
  | O => ([], g)
  | S n' =>
      let '(starts, g1) := draw_starts 1000 g in
      let '(rest, g2) := draw_replicates n' g1 in
      (starts :: rest, g2)
  end.

(** What [np.random.randint] promises about the value it draws. *)
Definition randint_in_range : Prop :=
  forall (high : Z) (g : G), (0 < high)%Z -> (0 <= fst (randint high g) < high)%Z.

End Draws.

(** The windows of one replicate: 1000 starts, each in [0, 99,900,000]. *)
Definition windows_of_replicate (starts : list Z) : Prop :=
  length starts = 1000 /\ Forall (fun start => (0 <= start <= 99900000)%Z) starts.

(** The six arrays of a list of per-replicate results. *)
Definition gather (stats : list (@patterns A)) : @arrays A :=
  (map (fun '(abba, _, _, _, _, _) => abba) stats,
   map (fun '(_, baba, _, _, _, _) => baba) stats,
   map (fun '(_, _, bbaa, _, _, _) => bbaa) stats,
   map (fun '(_, _, _, baaa, _, _) => baaa) stats,
   map (fun '(_, _, _, _, abaa, _) => abaa) stats,
   map (fun '(_, _, _, _, _, aaba) => aaba) stats).

(** The six arrays of [a] followed by those of [b]. *)
Definition arrays_app (a b : @arrays A) : @arrays A :=
  let '(a1, a2, a3, a4, a5, a6) := a in
  let '(b1, b2, b3, b4, b5, b6) := b in
  (a1 ++ b1, a2 ++ b2, a3 ++ b3, a4 ++ b4, a5 ++ b5, a6 ++ b6).

End Specification.

(** *** Exact arithmetic *)

(** The number of sites, as a rational. *)
Definition Qsites (m : Np.ndarray2 Q) : Q := inject_Z (Z.of_nat (Np.nrows m)).

(** Every entry of the matrix is 0 or 1. *)
Definition binary (m : Np.ndarray2 Q) : Prop :=
  Forall (Forall (fun x => x == 0 \/ x == 1)%Q) (Np.rows m).

(** The two patterns the counter does not compute: all derived, all
    ancestral. *)
Definition BBBA (f1 f2 f3 : Q) : Q := (f1 * f2 * f3)%Q.
Definition AAAA (f1 f2 f3 : Q) : Q := ((1 - f1) * (1 - f2) * (1 - f3))%Q.

Definition unit_interval (x : Q) : Prop := (0 <= x <= 1)%Q.

(** Two results of the counter that agree as rational numbers. *)
Definition patterns_eq (s s' : @patterns Q) : Prop :=
  let '(abba, baba, bbaa, baaa, abaa, aaba) := s in
  let '(abba', baba', bbaa', baaa', abaa', aaba') := s' in
  (abba == abba' /\ baba == baba' /\ bbaa == bbaa' /\
   baaa == baaa' /\ abaa == abaa' /\ aaba == aaba')%Q.

(** *** Inputs to run the program on *)

(** The matrix of the end-to-end example: three sites, three individuals. *)
Definition example_rows {A : Type} `{Scalar A} : list (list A) :=
  [[zero; one; one]; [one; zero; one]; [one; one; zero]].

Definition example_matrix {A : Type} `{Scalar A} : Np.ndarray2 A :=
  Np.mk 3 example_rows.

Definition example_positions : list Z := [10; 50000; 99999999]%Z.

(** The same matrix with its first two rows exchanged. *)
Definition example_swapped : Np.ndarray2 Q :=
  Np.mk 3 [[1; 0; 1]; [0; 1; 1]; [1; 1; 0]]%Q.

(** A matrix with no row. *)
Definition no_rows {A : Type} : Np.ndarray2 A := Np.mk 3 [].





(** A linear congruential generator standing for numpy's global random
    state: the state is reduced into [0, high) and then advanced. *)
Definition lcg_randint (high : Z) (g : Z) : Z * Z :=
  ((g mod high)%Z, ((1103515245 * g + 12345) mod 2147483648)%Z).

(** *** Symmetry, sums of results, and the reach of the windows *)

(** A result of the counter with the roles of P1 and P2 exchanged. *)
Definition swap_P1_P2 {A : Type} (s : @patterns A) : @patterns A :=
  let '(abba, baba, bbaa, baaa, abaa, aaba) := s in
  (baba, abba, bbaa, abaa, baaa, aaba).

(** Two results of the counter added up, statistic by statistic. *)
Definition patterns_add (s s' : @patterns Q) : @patterns Q :=
  let '(abba, baba, bbaa, baaa, abaa, aaba) := s in
  let '(abba', baba', bbaa', baaa', abaa', aaba') := s' in
  (abba + abba', baba + baba', bbaa + bbaa',
   baaa + baaa', abaa + abaa', aaba + aaba')%Q.

(** Two frequency vectors that agree as rational numbers. *)
Definition frequencies_eq (f f' : list Q) : Prop := Forall2 Qeq f f'.

(** The numerators of D and of its ancestral counterpart, site by site. *)
Definition D_term (f1 f2 f3 : Q) : Q := ((f2 - f1) * f3)%Q.
Definition D_anc_term (f1 f2 f3 : Q) : Q := ((f1 - f2) * (1 - f3))%Q.

(** A position that some window can cover: the windows begin in
    [0, 99,900,000] and are 100,000 long. *)
Definition within_reach (p : Z) : bool := ((0 <=? p) && (p <=? 100000000))%Z.

(** The sites at such positions, and their positions. *)
Definition reachable_sites {A : Type} (m : Np.ndarray2 A) (positions : list Z)
  : Np.ndarray2 A :=
  Np.mk (Np.ncols m)
    (map snd (filter (fun pr => within_reach (fst pr)) (combine positions (Np.rows m)))).

Definition reachable_positions {A : Type} (m : Np.ndarray2 A) (positions : list Z)
  : list Z :=
  map fst (filter (fun pr => within_reach (fst pr)) (combine positions (Np.rows m))).

(** The row at index [i], as [m[idx, :]] looks it up for every index. *)
Definition row_at {A : Type} (m : Np.ndarray2 A) (i : Z) : result (list A) :=
  k <- Np.normalize_index (Np.nrows m) i ;;
  match nth_error (Np.rows m) k with
  | Some r => Ok r
  | None => Raise IndexError
  end.

(** Six arrays without an entry. *)
Definition no_arrays {A : Type} : @arrays A := ([], [], [], [], [], []).

(** *** The script around the three functions *)

Module Script.
Import Stdlib.Strings.String.
Local Open Scope string_scope.

(** [str(n)] of an integer: its decimal digits, after a minus sign when it
    is negative. *)
Definition str (n : Z) : string := DecimalString.NilZero.string_of_int (Z.to_int n).

(** The files the script reads, for an error population and a replicate. *)
Definition geno_mat_path (err_pop : string) (rep_id : Z) : string :=
  "./seq_errors/geno_mats/" ++ err_pop ++ "/rep_id_" ++ str rep_id ++ "_geno_mat.csv.gz".

Definition var_pos_path (err_pop : string) (rep_id : Z) : string :=
  "./seq_errors/var_pos/" ++ err_pop ++ "/rep_id_" ++ str rep_id ++ "_var_pos.csv.gz".

Definition results_prefix (err_pop : string) (rep_id : Z) : string :=
  "./seq_errors/bootstraps/" ++ err_pop ++ "/rep_id_" ++ str rep_id ++ "_".

(** The six files it writes, in the order of the six arrays. *)
Definition result_paths (err_pop : string) (rep_id : Z) : list string :=
  [results_prefix err_pop rep_id ++ "abba.csv.gz";
   results_prefix err_pop rep_id ++ "baba.csv.gz";
   results_prefix err_pop rep_id ++ "bbaa.csv.gz";
   results_prefix err_pop rep_id ++ "baaa.csv.gz";
   results_prefix err_pop rep_id ++ "abaa.csv.gz";
   results_prefix err_pop rep_id ++ "aaba.csv.gz"].

(** The character [c] does not occur in [s]. *)
Definition free_of (c : Ascii.ascii) (s : string) : Prop :=
  ~ In c (list_ascii_of_string s).

End Script.

(** *** More inputs to run the program on *)

(** A matrix of two columns, and one of entries between 0 and 2. *)
Definition two_columns : Np.ndarray2 Q := Np.mk 2 [[0; 1]; [1; 1]]%Q.

Definition dosages : Np.ndarray2 Q := Np.mk 3 [[0; 2; 1]; [2; 1; 0]]%Q.

(** Positions of which the last lies beyond every window. *)
Definition far_positions : list Z := [10; 50000; 250000000]%Z.

(** Positions none of which any window covers. *)
Definition unreachable_positions : list Z := [-5; 250000000; 300000000]%Z.

(** One position more than the example matrix has rows. *)
Definition surplus_positions : list Z := [10; 50000; 99999999; 42]%Z.

(** ** Generic facts: the result monad, indices and vectors *)

Lemma normalize_index_valid (n : nat) (j : Z) :
  valid_col n j -> exists k, Np.normalize_index n j = Ok k /\ k < n.
Proof.
  unfold valid_col, Np.normalize_index. intros Hj.
  destruct (0 <=? j)%Z eqn:E0; simpl.
  - assert (E1 : (j <? Z.of_nat n)%Z = true) by (apply Z.ltb_lt; lia).
    rewrite E1. exists (Z.to_nat j). split; [reflexivity | ].
    apply Z.leb_le in E0. lia.
  - apply Z.leb_gt in E0.
    assert (E1 : (- Z.of_nat n <=? j)%Z = true) by (apply Z.leb_le; lia).
    assert (E2 : (j <? 0)%Z = true) by (apply Z.ltb_lt; lia).
    rewrite E1, E2. simpl. eexists. split; [reflexivity | lia].
Qed.

Lemma normalize_index_of_nat (n k : nat) :
  k < n -> Np.normalize_index n (Z.of_nat k) = Ok k.
Proof.
  intros Hk. unfold Np.normalize_index.
  assert (E0 : (0 <=? Z.of_nat k)%Z = true) by (apply Z.leb_le; lia).
  assert (E1 : (Z.of_nat k <? Z.of_nat n)%Z = true) by (apply Z.ltb_lt; lia).
  rewrite E0, E1. simpl. now rewrite Nat2Z.id.
Qed.

Lemma mapM_total {A B : Type} (f : A -> result B) (l : list A) :
  Forall (fun x => exists y, f x = Ok y) l ->
  exists l', mapM f l = Ok l' /\ Forall2 (fun x y => f x = Ok y) l l'.
Proof.
  induction 1 as [ | x l [y Hy] _ [l' [IH1 IH2]]]; simpl.
  - exists []. split; [reflexivity | constructor].
  - exists (y :: l'). rewrite Hy, IH1. split; [reflexivity | now constructor].
Qed.

Lemma for_range_add {S : Type} (body : S -> result S) (n k : nat) (s : S) :
  for_range (n + k) body s = s' <- for_range n body s ;; for_range k body s'.
Proof.
  revert s; induction n as [ | n IH]; intros s; simpl; [reflexivity | ].
  destruct (body s) as [s' | e]; simpl; [apply IH | reflexivity].
Qed.

Section Vectors.
Context {A : Type} `{Scalar A}.

Lemma fold_left_add_map {X : Type} (f : X -> A) (l : list X) (z : A) :
  fold_left add (map f l) z = fold_left (fun acc x => (acc + f x)%S) l z.
Proof. revert z; induction l as [ | x l IH]; intros z; simpl; [reflexivity | apply IH]. Qed.

Lemma site_sum_sum (n : nat) (term : nat -> A) :
  site_sum n term = Np.sum (map term (seq 0 n)).
Proof. unfold site_sum, Np.sum. now rewrite fold_left_add_map. Qed.

Lemma mul_cons (a b : A) (v w : list A) :
  Np.mul (a :: v) (b :: w) = (a * b)%S :: Np.mul v w.
Proof. reflexivity. Qed.

(** The elementwise product of three mapped vectors, site by site. *)
Lemma mul3_by_site (u v w : A -> A) (n : nat) (f1 f2 f3 : list A) :
  length f1 = n -> length f2 = n -> length f3 = n ->
  Np.mul (Np.mul (map u f1) (map v f2)) (map w f3) =
  map (fun i => (u (at_site f1 i) * v (at_site f2 i) * w (at_site f3 i))%S) (seq 0 n).
Proof.
  revert f1 f2 f3; induction n as [ | n IH]; intros f1 f2 f3 E1 E2 E3.
  - destruct f1; [ | discriminate]. reflexivity.
  - destruct f1 as [ | a f1], f2 as [ | b f2], f3 as [ | c f3]; try discriminate.
    injection E1 as E1. injection E2 as E2. injection E3 as E3.
    cbn [map seq]. rewrite !mul_cons. f_equal.
    rewrite <- seq_shift, map_map. now apply IH.
Qed.

Lemma take_cols_valid (m : Np.ndarray2 A) (idx : list Z) :
  Forall (valid_col (Np.ncols m)) idx ->
  exists js, Forall2 (fun j k => Np.normalize_index (Np.ncols m) j = Ok k) idx js /\
    Np.take_cols m idx =
    Ok (Np.mk (length idx) (map (fun r => map (fun k => nth k r zero) js) (Np.rows m))).
Proof.
  intros Hv.
  destruct (mapM_total (Np.normalize_index (Np.ncols m)) idx) as [js [E F]].
  - eapply Forall_impl; [ | exact Hv]. intros j Hj.
    destruct (normalize_index_valid _ _ Hj) as [k [Hk _]]. now exists k.
  - exists js. split; [exact F | ]. unfold Np.take_cols. now rewrite E.
Qed.

Lemma sum_selected (row : list A) (idx : list Z) (js : list nat) :
  Forall2 (fun j k => Np.normalize_index (length row) j = Ok k) idx js ->
  Np.sum (map (fun k => nth k row zero) js) = lineage_sum row idx.
Proof.
  intros F. unfold Np.sum, lineage_sum. rewrite fold_left_add_map.
  generalize (@zero A _) at 2 3. intros z; revert z.
  induction F as [ | j k idx js Hjk _ IH]; intros z; simpl; [reflexivity | ].
  rewrite IH. unfold genotype. now rewrite Hjk.
Qed.

(** On a well-formed matrix and valid column indices the frequency
    calculator returns, and its value is the one the specification words. *)
Lemma derived_allele_freq_valid (m : Np.ndarray2 A) (taxon : list Z) :
  Np.wf m -> Forall (valid_col (Np.ncols m)) taxon ->
  derived_allele_freq m taxon =
  Ok (map (fun row => (lineage_sum row taxon / of_len (length taxon))%S) (Np.rows m)).
Proof.
  intros Hwf Hv. destruct (take_cols_valid m taxon Hv) as [js [F E]].
  unfold derived_allele_freq. rewrite E. simpl. f_equal.
  unfold Np.div_scalar, Np.sum_axis1. simpl. rewrite !map_map.
  apply map_ext_in. intros row Hrow. f_equal.
  apply sum_selected.
  unfold Np.wf in Hwf. rewrite Forall_forall in Hwf. now rewrite (Hwf row Hrow).
Qed.

Lemma derived_allele_freq_length (m : Np.ndarray2 A) (taxon : list Z) (f : list A) :
  derived_allele_freq m taxon = Ok f -> length f = Np.nrows m.
Proof.
  unfold derived_allele_freq, Np.take_cols.
  destruct (mapM _ taxon) as [js | e]; simpl; [ | discriminate].
  intros E. injection E as <-.
  unfold Np.div_scalar, Np.sum_axis1, Np.nrows. simpl. now rewrite !length_map.
Qed.

End Vectors.

(** ** The frequency calculator and the site-pattern counter, over any scalars *)

Section Counter.
Context {A : Type} `{Scalar A}.

Lemma pattern_sum_vectorised (u v w : A -> A) (n : nat) (f1 f2 f3 : list A) :
  length f1 = n -> length f2 = n -> length f3 = n ->
  Np.sum (Np.mul (Np.mul (map u f1) (map v f2)) (map w f3)) =
  pattern_sum n (fun a b c => (u a * v b * w c)%S) f1 f2 f3.
Proof.
  intros E1 E2 E3. unfold pattern_sum. rewrite site_sum_sum.
  now rewrite (mul3_by_site u v w n f1 f2 f3 E1 E2 E3).
Qed.

(** The counter on three frequency vectors the calculator returned. *)
Lemma site_patterns_of_frequencies (m : Np.ndarray2 A) (P1 P2 P3 : list Z)
  (f1 f2 f3 : list A) :
  derived_allele_freq m P1 = Ok f1 ->
  derived_allele_freq m P2 = Ok f2 ->
  derived_allele_freq m P3 = Ok f3 ->
  site_patterns m P1 P2 P3 =
  Ok (pattern_sum (Np.nrows m) ABBA f1 f2 f3, pattern_sum (Np.nrows m) BABA f1 f2 f3,
      pattern_sum (Np.nrows m) BBAA f1 f2 f3, pattern_sum (Np.nrows m) BAAA f1 f2 f3,
      pattern_sum (Np.nrows m) ABAA f1 f2 f3, pattern_sum (Np.nrows m) AABA f1 f2 f3).
Proof.
  intros E1 E2 E3. unfold site_patterns. rewrite E1, E2, E3. cbn [bind].
  apply derived_allele_freq_length in E1, E2, E3.
  unfold Np.rsub.
  pose proof (fun u v w => pattern_sum_vectorised u v w _ f1 f2 f3 E1 E2 E3) as V.
  set (c := fun x : A => (one - x)%S) in *.
  pose proof (V c id id) as Vabba.
  pose proof (V id c id) as Vbaba.
  pose proof (V id id c) as Vbbaa.
  pose proof (V id c c) as Vbaaa.
  pose proof (V c id c) as Vabaa.
  pose proof (V c c id) as Vaaba.
  rewrite !map_id in *.
  rewrite Vabba, Vbaba, Vbbaa, Vbaaa, Vabaa, Vaaba. reflexivity.
Qed.

(** C1: the site-pattern counter takes the three frequency vectors from the
    frequency calculator and returns, in the order ABBA, BABA, BBAA, BAAA,
    ABAA, AABA, the six pattern products summed over all the sites. *)
Theorem site_patterns_formulas (m : Np.ndarray2 A) (P1 P2 P3 : list Z) :
  site_patterns m P1 P2 P3 =
  (f1 <- derived_allele_freq m P1 ;;
   f2 <- derived_allele_freq m P2 ;;
   f3 <- derived_allele_freq m P3 ;;
   let n := Np.nrows m in
   Ok (pattern_sum n ABBA f1 f2 f3, pattern_sum n BABA f1 f2 f3,
       pattern_sum n BBAA f1 f2 f3, pattern_sum n BAAA f1 f2 f3,
       pattern_sum n ABAA f1 f2 f3, pattern_sum n AABA f1 f2 f3)).
Proof.
  destruct (derived_allele_freq m P1) as [f1 | e] eqn:E1.
  - destruct (derived_allele_freq m P2) as [f2 | e] eqn:E2.
    + destruct (derived_allele_freq m P3) as [f3 | e] eqn:E3.
      * cbn [bind]. now apply site_patterns_of_frequencies.
      * unfold site_patterns. now rewrite E1, E2, E3.
    + unfold site_patterns. now rewrite E1, E2.
  - unfold site_patterns. now rewrite E1.
Qed.

(** C2: for a non-empty list of valid column indices, the frequency
    calculator returns one value per site, the sum of the lineage's genotype
    values at that site divided by the number of individuals of the lineage. *)
Theorem derived_allele_freq_per_site (m : Np.ndarray2 A) (taxon : list Z) :
  Np.wf m -> taxon <> [] -> Forall (valid_col (Np.ncols m)) taxon ->
  exists f, derived_allele_freq m taxon = Ok f /\
    length f = Np.nrows m /\
    forall i row, nth_error (Np.rows m) i = Some row ->
      nth_error f i = Some (lineage_sum row taxon / of_len (length taxon))%S.
Proof.
  intros Hwf _ Hv. eexists. split; [now apply derived_allele_freq_valid | ].
  split; [unfold Np.nrows; now rewrite length_map | ].
  intros i row Hi. now rewrite nth_error_map, Hi.
Qed.

(** C6: on a matrix with no row, all six site-pattern sums are zero. *)
Theorem site_patterns_no_rows (m : Np.ndarray2 A) (P1 P2 P3 : list Z) :
  Np.rows m = [] ->
  Forall (valid_col (Np.ncols m)) P1 ->
  Forall (valid_col (Np.ncols m)) P2 ->
  Forall (valid_col (Np.ncols m)) P3 ->
  site_patterns m P1 P2 P3 = Ok (zero, zero, zero, zero, zero, zero).
Proof.
  intros E V1 V2 V3.
  assert (Hwf : Np.wf m) by (unfold Np.wf; rewrite E; constructor).
  unfold site_patterns.
  rewrite !derived_allele_freq_valid by assumption.
  rewrite E. reflexivity.
Qed.

End Counter.

(** ** Exact arithmetic *)

Section Exact.
Local Open Scope Q_scope.

Lemma site_sum_S (n : nat) (term : nat -> Q) :
  site_sum (S n) term = site_sum n term + term n.
Proof.
  unfold site_sum. rewrite seq_S, fold_left_app. reflexivity.
Qed.

Lemma inject_Z_S (n : nat) : inject_Z (Z.of_nat (S n)) == inject_Z (Z.of_nat n) + 1.
Proof. rewrite Nat2Z.inj_succ. unfold Z.succ. now rewrite inject_Z_plus. Qed.

Lemma site_sum_le (n : nat) (term : nat -> Q) :
  (forall i, (i < n)%nat -> term i <= 1) ->
  site_sum n term <= inject_Z (Z.of_nat n).
Proof.
  induction n as [ | n IH]; intros Hle.
  - apply Qle_refl.
  - rewrite site_sum_S, inject_Z_S.
    apply Qplus_le_compat; [apply IH; intros i Hi; apply Hle; lia | apply Hle; lia].
Qed.

Lemma Q_zero_add_div_one (x : Q) : (0 + x) / inject_Z (Z.of_nat 1) = x.
Proof.
  destruct x as [n d]. unfold Qdiv, Qmult, Qplus, Qinv, inject_Z. simpl.
  now rewrite !Z.mul_1_r, Pos.mul_1_r.
Qed.

(** C5: for a lineage of exactly one individual the frequency calculator
    returns that individual's raw genotype column, site for site. *)
Theorem single_individual_raw_column (m : Np.ndarray2 Q) (j : Z) :
  Np.wf m -> valid_col (Np.ncols m) j ->
  derived_allele_freq m [j] = Ok (column m j).
Proof.
  intros Hwf Hj.
  rewrite derived_allele_freq_valid by (auto using Forall_cons, Forall_nil).
  unfold column. f_equal. apply map_ext. intros row.
  unfold lineage_sum. cbn [fold_left length]. apply Q_zero_add_div_one.
Qed.

Lemma genotype_unit (row : list Q) (j : Z) :
  Forall unit_interval row -> unit_interval (genotype row j).
Proof.
  intros Hrow. unfold genotype.
  destruct (Np.normalize_index (length row) j) as [k | e].
  - destruct (nth_in_or_default k row zero) as [Hin | ->].
    + rewrite Forall_forall in Hrow. now apply Hrow.
    + split; simpl; lra.
  - split; simpl; lra.
Qed.

Lemma lineage_sum_bounds (row : list Q) (taxon : list Z) :
  Forall unit_interval row ->
  0 <= lineage_sum row taxon <= inject_Z (Z.of_nat (length taxon)).
Proof.
  intros Hrow. unfold lineage_sum.
  assert (G : forall z, z <= fold_left (fun acc j => (acc + genotype row j)%S) taxon z
                        <= z + inject_Z (Z.of_nat (length taxon))).
  { induction taxon as [ | j taxon IH]; intros z.
    - simpl. change (inject_Z 0) with 0. lra.
    - cbn [fold_left length]. rewrite inject_Z_S.
      destruct (genotype_unit row j Hrow) as [G0 G1].
      specialize (IH (z + genotype row j)%S). simpl in IH |- *. lra. }
  specialize (G zero). simpl in G |- *. lra.
Qed.

Lemma frequency_unit (row : list Q) (taxon : list Z) :
  taxon <> [] -> Forall unit_interval row ->
  unit_interval (lineage_sum row taxon / of_len (length taxon))%S.
Proof.
  intros Hne Hrow. destruct (lineage_sum_bounds row taxon Hrow) as [L U].
  assert (K : 0 < inject_Z (Z.of_nat (length taxon))).
  { replace 0 with (inject_Z 0) by reflexivity. rewrite <- Zlt_Qlt.
    destruct taxon; [congruence | simpl; lia]. }
  simpl. split.
  - apply Qle_shift_div_l; [exact K | lra].
  - apply Qle_shift_div_r; [exact K | lra].
Qed.

Lemma binary_unit (m : Np.ndarray2 Q) :
  binary m -> Forall (Forall unit_interval) (Np.rows m).
Proof.
  unfold binary. intros B. eapply Forall_impl; [ | exact B].
  intros row Hrow. eapply Forall_impl; [ | exact Hrow].
  intros x [E | E]; unfold unit_interval; rewrite E; lra.
Qed.

(** On binary input every frequency lies between 0 and 1. *)
Lemma frequencies_unit (m : Np.ndarray2 Q) (taxon : list Z) :
  binary m -> taxon <> [] ->
  Forall unit_interval
    (map (fun row => (lineage_sum row taxon / of_len (length taxon))%S) (Np.rows m)).
Proof.
  intros B Hne. apply Forall_map. eapply Forall_impl; [ | exact (binary_unit m B)].
  intros row Hrow. now apply frequency_unit.
Qed.

Lemma at_site_unit (f : list Q) (i : nat) :
  Forall unit_interval f -> unit_interval (at_site f i).
Proof.
  intros Hf. unfold at_site.
  destruct (nth_in_or_default i f zero) as [Hin | ->].
  - rewrite Forall_forall in Hf. now apply Hf.
  - split; simpl; lra.
Qed.

Lemma product_unit (a b c : Q) :
  unit_interval a -> unit_interval b -> unit_interval c -> a * b * c <= 1.
Proof.
  intros [A0 A1] [B0 B1] [C0 C1].
  assert (AB0 : 0 <= a * b) by (apply Qmult_le_0_compat; assumption).
  assert (AB1 : a * b <= 1) by nra.
  nra.
Qed.

Lemma complement_unit (a : Q) : unit_interval a -> unit_interval (1 - a).
Proof. unfold unit_interval. lra. Qed.

Lemma pattern_sum_le (n : nat) (u v w : Q -> Q) (f1 f2 f3 : list Q) :
  (forall a, unit_interval a -> unit_interval (u a)) ->
  (forall a, unit_interval a -> unit_interval (v a)) ->
  (forall a, unit_interval a -> unit_interval (w a)) ->
  Forall unit_interval f1 -> Forall unit_interval f2 -> Forall unit_interval f3 ->
  pattern_sum n (fun a b c => u a * v b * w c) f1 f2 f3 <= inject_Z (Z.of_nat n).
Proof.
  intros Hu Hv Hw H1 H2 H3. unfold pattern_sum. apply site_sum_le. intros i _.
  apply product_unit; [apply Hu | apply Hv | apply Hw]; now apply at_site_unit.
Qed.

(** C8: on a matrix of zeros and ones, each of the six site-pattern sums is
    at most the number of rows. *)
Theorem binary_sums_at_most_rows (m : Np.ndarray2 Q) (P1 P2 P3 : list Z) :
  Np.wf m -> binary m ->
  P1 <> [] -> Forall (valid_col (Np.ncols m)) P1 ->
  P2 <> [] -> Forall (valid_col (Np.ncols m)) P2 ->
  P3 <> [] -> Forall (valid_col (Np.ncols m)) P3 ->
  exists abba baba bbaa baaa abaa aaba,
    site_patterns m P1 P2 P3 = Ok (abba, baba, bbaa, baaa, abaa, aaba) /\
    abba <= Qsites m /\ baba <= Qsites m /\ bbaa <= Qsites m /\
    baaa <= Qsites m /\ abaa <= Qsites m /\ aaba <= Qsites m.
Proof.
  intros Hwf B N1 V1 N2 V2 N3 V3.
  rewrite (site_patterns_of_frequencies m P1 P2 P3 _ _ _
             (derived_allele_freq_valid m P1 Hwf V1)
             (derived_allele_freq_valid m P2 Hwf V2)
             (derived_allele_freq_valid m P3 Hwf V3)).
  pose proof (frequencies_unit m P1 B N1) as U1.
  pose proof (frequencies_unit m P2 B N2) as U2.
  pose proof (frequencies_unit m P3 B N3) as U3.
  do 6 eexists. split; [reflexivity | ]. unfold Qsites.
  pose proof complement_unit as Hc.
  assert (Hi : forall a, unit_interval a -> unit_interval a) by auto.
  repeat split.
  - exact (pattern_sum_le _ (fun a => 1 - a) (fun a => a) (fun a => a) _ _ _ Hc Hi Hi U1 U2 U3).
  - exact (pattern_sum_le _ (fun a => a) (fun a => 1 - a) (fun a => a) _ _ _ Hi Hc Hi U1 U2 U3).
  - exact (pattern_sum_le _ (fun a => a) (fun a => a) (fun a => 1 - a) _ _ _ Hi Hi Hc U1 U2 U3).
  - exact (pattern_sum_le _ (fun a => a) (fun a => 1 - a) (fun a => 1 - a) _ _ _ Hi Hc Hc U1 U2 U3).
  - exact (pattern_sum_le _ (fun a => 1 - a) (fun a => a) (fun a => 1 - a) _ _ _ Hc Hi Hc U1 U2 U3).
  - exact (pattern_sum_le _ (fun a => 1 - a) (fun a => 1 - a) (fun a => a) _ _ _ Hc Hc Hi U1 U2 U3).
Qed.

Ltac exact_ops :=
  unfold ABBA, BABA, BBAA, BAAA, ABAA, AABA, BBBA, AAAA;
  cbn [add sub mul div zero one Q_scalar].

(** The eight pattern products add up to one at every site, whatever the
    three frequencies are. *)
Lemma eight_patterns_partition (n : nat) (f1 f2 f3 : list Q) :
  pattern_sum n ABBA f1 f2 f3 + pattern_sum n BABA f1 f2 f3 +
  pattern_sum n BBAA f1 f2 f3 + pattern_sum n BAAA f1 f2 f3 +
  pattern_sum n ABAA f1 f2 f3 + pattern_sum n AABA f1 f2 f3 +
  pattern_sum n BBBA f1 f2 f3 + pattern_sum n AAAA f1 f2 f3
  == inject_Z (Z.of_nat n).
Proof.
  unfold pattern_sum. induction n as [ | n IH].
  - reflexivity.
  - rewrite !site_sum_S, inject_Z_S, <- IH. exact_ops. ring.
Qed.

(** C10: the six returned sums, together with the sums of the two patterns
    the counter leaves out (all derived, all ancestral), add up to the number
    of sites, for arbitrary rational genotype values. *)
Theorem eight_sums_number_of_sites (m : Np.ndarray2 Q) (P1 P2 P3 : list Z) :
  Np.wf m ->
  P1 <> [] -> Forall (valid_col (Np.ncols m)) P1 ->
  P2 <> [] -> Forall (valid_col (Np.ncols m)) P2 ->
  P3 <> [] -> Forall (valid_col (Np.ncols m)) P3 ->
  exists f1 f2 f3 abba baba bbaa baaa abaa aaba,
    derived_allele_freq m P1 = Ok f1 /\
    derived_allele_freq m P2 = Ok f2 /\
    derived_allele_freq m P3 = Ok f3 /\
    site_patterns m P1 P2 P3 = Ok (abba, baba, bbaa, baaa, abaa, aaba) /\
    abba + baba + bbaa + baaa + abaa + aaba +
    pattern_sum (Np.nrows m) BBBA f1 f2 f3 +
    pattern_sum (Np.nrows m) AAAA f1 f2 f3 == Qsites m.
Proof.
  intros Hwf _ V1 _ V2 _ V3.
  pose proof (derived_allele_freq_valid m P1 Hwf V1) as E1.
  pose proof (derived_allele_freq_valid m P2 Hwf V2) as E2.
  pose proof (derived_allele_freq_valid m P3 Hwf V3) as E3.
  do 9 eexists. split; [exact E1 | ]. split; [exact E2 | ]. split; [exact E3 | ].
  split; [exact (site_patterns_of_frequencies m P1 P2 P3 _ _ _ E1 E2 E3) | ].
  apply eight_patterns_partition.
Qed.

(** *** Row order *)

Lemma fold_left_Qplus_shift (l : list Q) (z : Q) :
  fold_left Qplus l z == z + fold_left Qplus l 0.
Proof.
  revert z; induction l as [ | x l IH]; intros z; simpl.
  - ring.
  - rewrite (IH (z + x)), (IH (0 + x)). ring.
Qed.

Lemma sum_cons (x : Q) (l : list Q) : Np.sum (x :: l) == x + Np.sum l.
Proof.
  unfold Np.sum. simpl. rewrite fold_left_Qplus_shift. ring.
Qed.

Lemma sum_Permutation (l l' : list Q) :
  Permutation l l' -> Np.sum l == Np.sum l'.
Proof.
  induction 1 as [ | x l l' _ IH | x y l | l l' l'' _ IH1 _ IH2].
  - reflexivity.
  - now rewrite !sum_cons, IH.
  - rewrite !sum_cons. ring.
  - now rewrite IH1.
Qed.

End Exact.

(** The elementwise product of three vectors computed row by row. *)
Lemma mul3_by_row {A R : Type} `{Scalar A} (u v w : A -> A) (g1 g2 g3 : R -> A)
  (l : list R) :
  Np.mul (Np.mul (map u (map g1 l)) (map v (map g2 l))) (map w (map g3 l)) =
  map (fun r => (u (g1 r) * v (g2 r) * w (g3 r))%S) l.
Proof.
  induction l as [ | r l IH]; [reflexivity | ].
  cbn [map]. rewrite !mul_cons. now f_equal.
Qed.

Section ExactRowOrder.
Local Open Scope Q_scope.



End ExactRowOrder.

(** ** The block bootstrap driver *)

Section Driver.
Context {A : Type} `{Scalar A}.
Context {G : Type}.
Variable randint : Z -> G -> Z * G.

(** Indexing the rows with the indices found by [np.where] selects the rows
    whose position lies in the window, in their order. *)
Lemma take_where_rows (m : Np.ndarray2 A) (lo : Z) :
  forall (positions : list Z) (pre rest : list (list A)),
  Np.rows m = pre ++ rest -> length positions = length rest ->
  mapM (fun i => k <- Np.normalize_index (Np.nrows m) i ;;
                 match nth_error (Np.rows m) k with
                 | Some r => Ok r
                 | None => Raise IndexError
                 end)
    (Np.where_between_from (Z.of_nat (length pre)) lo (lo + 100000) positions) =
  Ok (map snd (filter (in_window lo) (combine positions rest))).
Proof.
  induction positions as [ | p positions IH]; intros pre rest Em El.
  - reflexivity.
  - destruct rest as [ | r rest]; [discriminate | ]. injection El as El.
    assert (Em' : Np.rows m = (pre ++ [r]) ++ rest) by now rewrite <- app_assoc.
    specialize (IH (pre ++ [r]) rest Em' El).
    rewrite length_app, Nat2Z.inj_add in IH. cbn [length Z.of_nat Pos.of_succ_nat] in IH.
    cbn [Np.where_between_from combine filter]. unfold in_window at 1. cbn [fst].
    destruct ((lo <=? p) && (p <=? lo + 100000))%Z.
    + cbn [mapM map snd].
      rewrite normalize_index_of_nat
        by (unfold Np.nrows; rewrite Em, length_app; simpl; lia).
      cbn [bind]. rewrite Em at 1. rewrite nth_error_app2 by lia.
      rewrite Nat.sub_diag. cbn [nth_error bind]. now rewrite IH.
    + exact IH.
Qed.

Lemma take_rows_window (m : Np.ndarray2 A) (positions : list Z) (start : Z) :
  length positions = Np.nrows m ->
  Np.take_rows m (Np.where_between start (start + 100000) positions) =
  Ok (Np.mk (Np.ncols m) (window_rows m positions start)).
Proof.
  intros El. unfold Np.take_rows, Np.where_between.
  pose proof (take_where_rows m start positions [] (Np.rows m) eq_refl El) as E.
  cbn [length Z.of_nat] in E. now rewrite E.
Qed.

Lemma window_step_spec (m : Np.ndarray2 A) (positions : list Z)
  (acc : list (list A)) (g : G) :
  Np.ncols m = 3 -> length positions = Np.nrows m ->
  window_step randint m positions (Np.mk 3 acc, g) =
  Ok (Np.mk 3 (acc ++ window_rows m positions (fst (randint 99900001 g))),
      snd (randint 99900001 g)).
Proof.
  intros Ec El. unfold window_step.
  destruct (randint 99900001 g) as [start g']. cbn [fst snd].
  rewrite take_rows_window by assumption. cbn [bind].
  unfold Np.concatenate. cbn [Np.ncols Np.rows]. now rewrite Ec.
Qed.

Lemma windows_spec (m : Np.ndarray2 A) (positions : list Z) :
  Np.ncols m = 3 -> length positions = Np.nrows m ->
  forall (k : nat) (acc : list (list A)) (g : G),
  for_range k (window_step randint m positions) (Np.mk 3 acc, g) =
  Ok (Np.mk 3 (acc ++ flat_map (window_rows m positions) (fst (draw_starts randint k g))),
      snd (draw_starts randint k g)).
Proof.
  intros Ec El. induction k as [ | k IH]; intros acc g.
  - cbn. now rewrite app_nil_r.
  - cbn [for_range draw_starts]. rewrite window_step_spec by assumption.
    cbn [bind]. rewrite IH.
    destruct (randint 99900001 g) as [start g1]. cbn [fst snd].
    destruct (draw_starts randint k g1) as [starts g2]. cbn [fst snd flat_map].
    now rewrite <- app_assoc.
Qed.

Lemma derived_allele_freq_total (m : Np.ndarray2 A) (taxon : list Z) :
  Forall (valid_col (Np.ncols m)) taxon -> exists f, derived_allele_freq m taxon = Ok f.
Proof.
  intros Hv. destruct (take_cols_valid m taxon Hv) as [js [_ E]].
  unfold derived_allele_freq. rewrite E. cbn [bind]. eexists. reflexivity.
Qed.

Lemma site_patterns_total (m : Np.ndarray2 A) (P1 P2 P3 : list Z) :
  Forall (valid_col (Np.ncols m)) P1 ->
  Forall (valid_col (Np.ncols m)) P2 ->
  Forall (valid_col (Np.ncols m)) P3 ->
  exists s, site_patterns m P1 P2 P3 = Ok s.
Proof.
  intros V1 V2 V3. unfold site_patterns.
  destruct (derived_allele_freq_total m P1 V1) as [f1 ->].
  destruct (derived_allele_freq_total m P2 V2) as [f2 ->].
  destruct (derived_allele_freq_total m P3 V3) as [f3 ->].
  cbn [bind]. eexists. reflexivity.
Qed.

Lemma resampled_patterns_total (m : Np.ndarray2 A) (positions starts : list Z) :
  exists s, site_patterns (resampled_genome m positions starts) [0%Z] [1%Z] [2%Z] = Ok s.
Proof.
  apply site_patterns_total; repeat constructor; unfold valid_col; simpl; lia.
Qed.

Lemma replicate_step_spec (m : Np.ndarray2 A) (positions : list Z) :
  Np.ncols m = 3 -> length positions = Np.nrows m ->
  forall (arrs : @arrays A) (g : G),
  exists st,
    site_patterns (resampled_genome m positions (fst (draw_starts randint 1000 g)))
      [0%Z] [1%Z] [2%Z] = Ok st /\
    replicate_step randint m positions (arrs, g) =
    Ok (arrays_app arrs (gather [st]), snd (draw_starts randint 1000 g)).
Proof.
  intros Ec El arrs g.
  destruct (resampled_patterns_total m positions (fst (draw_starts randint 1000 g)))
    as [st Est].
  exists st. split; [exact Est | ].
  destruct arrs as [[[[[a1 a2] a3] a4] a5] a6].
  unfold replicate_step, Np.empty0.
  rewrite (windows_spec m positions Ec El). cbn [bind app].
  unfold resampled_genome in Est. rewrite Est. cbn [bind].
  destruct st as [[[[[abba baba] bbaa] baaa] abaa] aaba]. reflexivity.
Qed.

Lemma arrays_app_assoc (arrs : @arrays A) (st : @patterns A) (stats : list (@patterns A)) :
  arrays_app (arrays_app arrs (gather [st])) (gather stats) =
  arrays_app arrs (gather (st :: stats)).
Proof.
  destruct arrs as [[[[[a1 a2] a3] a4] a5] a6].
  destruct st as [[[[[abba baba] bbaa] baaa] abaa] aaba].
  cbn [arrays_app gather map]. now rewrite <- !app_assoc.
Qed.

(** The driver unfolded: replicate after replicate, the windows are drawn,
    the genome is resampled and its patterns are stored. *)
Lemma replicates_spec (m : Np.ndarray2 A) (positions : list Z) :
  Np.ncols m = 3 -> length positions = Np.nrows m ->
  forall (n : nat) (arrs : @arrays A) (g : G),
  exists stats,
    Forall2 (fun starts st =>
               site_patterns (resampled_genome m positions starts)
                 [0%Z] [1%Z] [2%Z] = Ok st)
      (fst (draw_replicates randint n g)) stats /\
    for_range n (replicate_step randint m positions) (arrs, g) =
    Ok (arrays_app arrs (gather stats), snd (draw_replicates randint n g)).
Proof.
  intros Ec El. induction n as [ | n IH]; intros arrs g.
  - exists []. split; [constructor | ].
    destruct arrs as [[[[[a1 a2] a3] a4] a5] a6].
    cbn. now rewrite !app_nil_r.
  - destruct (replicate_step_spec m positions Ec El arrs g) as [st [Est Estep]].
    destruct (IH (arrays_app arrs (gather [st])) (snd (draw_starts randint 1000 g)))
      as [stats [F Eloop]].
    exists (st :: stats).
    cbn [for_range draw_replicates]. rewrite Estep. cbn [bind]. rewrite Eloop.
    destruct (draw_starts randint 1000 g) as [starts g1]. cbn [fst snd] in *.
    destruct (draw_replicates randint n g1) as [rest g2]. cbn [fst snd] in *.
    split; [now constructor | ]. now rewrite arrays_app_assoc.
Qed.

Lemma arrays_app_nil (b : @arrays A) : arrays_app ([], [], [], [], [], []) b = b.
Proof. destruct b as [[[[[b1 b2] b3] b4] b5] b6]. reflexivity. Qed.

Lemma draw_starts_length (k : nat) (g : G) :
  length (fst (draw_starts randint k g)) = k.
Proof.
  revert g; induction k as [ | k IH]; intros g; [reflexivity | ].
  cbn [draw_starts]. destruct (randint 99900001 g) as [start g1].
  specialize (IH g1). destruct (draw_starts randint k g1) as [starts g2].
  cbn [fst length] in *. now rewrite IH.
Qed.

Lemma draw_starts_range (k : nat) (g : G) :
  randint_in_range randint ->
  Forall (fun start => (0 <= start <= 99900000)%Z) (fst (draw_starts randint k g)).
Proof.
  intros R. revert g; induction k as [ | k IH]; intros g; [constructor | ].
  cbn [draw_starts]. pose proof (R 99900001%Z g eq_refl) as Rg.
  destruct (randint 99900001 g) as [start g1].
  specialize (IH g1). destruct (draw_starts randint k g1) as [starts g2].
  cbn [fst] in *. constructor; [lia | exact IH].
Qed.

Lemma draw_replicates_spec (n : nat) (g : G) :
  randint_in_range randint ->
  length (fst (draw_replicates randint n g)) = n /\
  Forall windows_of_replicate (fst (draw_replicates randint n g)).
Proof.
  intros R. revert g; induction n as [ | n IH]; intros g.
  - split; [reflexivity | constructor].
  - cbn [draw_replicates].
    pose proof (draw_starts_length 1000 g) as L.
    pose proof (draw_starts_range 1000 g R) as F.
    destruct (draw_starts randint 1000 g) as [starts g1].
    specialize (IH g1). destruct (draw_replicates randint n g1) as [rest g2].
    cbn [fst length] in *. destruct IH as [IHl IHf].
    split; [now rewrite IHl | constructor; [split; assumption | exact IHf]].
Qed.

Lemma draw_replicates_length (n : nat) (g : G) :
  length (fst (draw_replicates randint n g)) = n.
Proof.
  revert g; induction n as [ | n IH]; intros g; [reflexivity | ].
  cbn [draw_replicates]. destruct (draw_starts randint 1000 g) as [starts g1].
  specialize (IH g1). destruct (draw_replicates randint n g1) as [rest g2].
  cbn [fst length] in *. now rewrite IH.
Qed.

(** A matrix of another width than three makes the first concatenation, and
    with it the driver, raise. *)
Lemma bootstrap_needs_three_columns (m : Np.ndarray2 A) (positions : list Z)
  (N : Z) (g : G) :
  Np.ncols m <> 3 -> length positions = Np.nrows m -> (1 <= N)%Z ->
  genotype_matrix_bootstrap randint m positions N g = Raise ValueError.
Proof.
  intros Ec El HN. unfold genotype_matrix_bootstrap.
  destruct (Z.to_nat N) as [ | n] eqn:En; [lia | ].
  change (S n) with (1 + n). rewrite for_range_add.
  cbn [for_range]. unfold replicate_step at 1.
  change 1000 with (1 + 999). rewrite for_range_add.
  cbn [for_range]. unfold window_step at 1, Np.empty0.
  destruct (randint 99900001 g) as [start g1].
  rewrite take_rows_window by assumption. cbn [bind].
  unfold Np.concatenate. cbn [Np.ncols].
  destruct (Nat.eqb_spec 3 (Np.ncols m)) as [E | _]; [congruence | reflexivity].
Qed.

(** C3: every replicate draws 1000 window starts, each an integer of
    [0, 99,900,000]; the rows whose position lies in [start, start + 100,000]
    are appended window after window, in their original order, and the
    replicate's six statistics are those of the site-pattern counter on the
    assembled genome with P1 = column 0, P2 = column 1, P3 = column 2. *)
Theorem bootstrap_replicates (m : Np.ndarray2 A) (positions : list Z) (N : Z) (g : G) :
  randint_in_range randint ->
  Np.ncols m = 3 -> length positions = Np.nrows m ->
  exists stats,
    length (fst (draw_replicates randint (Z.to_nat N) g)) = Z.to_nat N /\
    Forall windows_of_replicate (fst (draw_replicates randint (Z.to_nat N) g)) /\
    Forall2 (fun starts st =>
               site_patterns (resampled_genome m positions starts)
                 [0%Z] [1%Z] [2%Z] = Ok st)
      (fst (draw_replicates randint (Z.to_nat N) g)) stats /\
    genotype_matrix_bootstrap randint m positions N g =
    Ok (gather stats, snd (draw_replicates randint (Z.to_nat N) g)).
Proof.
  intros R Ec El.
  destruct (replicates_spec m positions Ec El (Z.to_nat N) ([], [], [], [], [], []) g)
    as [stats [F E]].
  destruct (draw_replicates_spec (Z.to_nat N) g R) as [L W].
  exists stats. split; [exact L | ]. split; [exact W | ]. split; [exact F | ].
  rewrite arrays_app_nil in E. exact E.
Qed.

(** C4: called with N replicates, the driver returns six arrays, one for
    each statistic in the order ABBA, BABA, BBAA, BAAA, ABAA, AABA, each of
    length N: the i-th entry of an array is that statistic of the i-th
    replicate. *)
Theorem bootstrap_six_arrays_of_length_N (m : Np.ndarray2 A) (positions : list Z)
  (N : Z) (g : G) :
  Np.ncols m = 3 -> length positions = Np.nrows m -> (0 <= N)%Z ->
  exists stats abba_array baba_array bbaa_array baaa_array abaa_array aaba_array g',
    Forall2 (fun starts st =>
               site_patterns (resampled_genome m positions starts)
                 [0%Z] [1%Z] [2%Z] = Ok st)
      (fst (draw_replicates randint (Z.to_nat N) g)) stats /\
    genotype_matrix_bootstrap randint m positions N g =
    Ok ((abba_array, baba_array, bbaa_array, baaa_array, abaa_array, aaba_array), g') /\
    (abba_array, baba_array, bbaa_array, baaa_array, abaa_array, aaba_array) =
    gather stats /\
    g' = snd (draw_replicates randint (Z.to_nat N) g) /\
    (forall i abba baba bbaa baaa abaa aaba,
       nth_error stats i = Some (abba, baba, bbaa, baaa, abaa, aaba) ->
       nth_error abba_array i = Some abba /\ nth_error baba_array i = Some baba /\
       nth_error bbaa_array i = Some bbaa /\ nth_error baaa_array i = Some baaa /\
       nth_error abaa_array i = Some abaa /\ nth_error aaba_array i = Some aaba) /\
    Z.of_nat (length abba_array) = N /\ Z.of_nat (length baba_array) = N /\
    Z.of_nat (length bbaa_array) = N /\ Z.of_nat (length baaa_array) = N /\
    Z.of_nat (length abaa_array) = N /\ Z.of_nat (length aaba_array) = N.
Proof.
  intros Ec El HN.
  destruct (replicates_spec m positions Ec El (Z.to_nat N) ([], [], [], [], [], []) g)
    as [stats [F E]].
  pose proof (Forall2_length F) as L. rewrite draw_replicates_length in L.
  rewrite arrays_app_nil in E. unfold gather in E.
  exists stats. do 7 eexists.
  split; [exact F | ]. split; [exact E | ]. split; [reflexivity | ].
  split; [reflexivity | ]. unfold patterns in *. split.
  - intros i abba baba bbaa baaa abaa aaba Hi.
    rewrite !nth_error_map, Hi. cbn [option_map]. repeat split.
  - rewrite !length_map, <- L. repeat split; lia.
Qed.

End Driver.

(** ** The program on concrete inputs *)

Ltac valid_cols :=
  repeat (apply Forall_cons; [unfold valid_col; simpl; lia | ]); apply Forall_nil.

Ltac well_formed := unfold Np.wf; repeat (apply Forall_cons; [reflexivity | ]); apply Forall_nil.

Lemma example_binary : binary example_matrix.
Proof.
  unfold binary. simpl.
  repeat (apply Forall_cons; [ | try apply Forall_nil]);
    repeat (apply Forall_cons; [ | try apply Forall_nil]);
    (left; reflexivity) || (right; reflexivity).
Qed.

Lemma lcg_in_range : randint_in_range lcg_randint.
Proof.
  intros high g Hh. unfold lcg_randint. cbn [fst].
  apply Z.mod_pos_bound. exact Hh.
Qed.

(** C9: on the matrix [[0,1,1],[1,0,1],[1,1,0]] with P1 = [0], P2 = [1],
    P3 = [2] the frequencies are f1 = [0,1,1], f2 = [1,0,1], f3 = [1,1,0] and
    the counter returns ABBA = BABA = BBAA = 1 and BAAA = ABAA = AABA = 0,
    in exact arithmetic as well as in binary64. *)
Theorem end_to_end_example :
  (derived_allele_freq (A := Q) example_matrix [0%Z] = Ok [0; 1; 1]%Q /\
   derived_allele_freq (A := Q) example_matrix [1%Z] = Ok [1; 0; 1]%Q /\
   derived_allele_freq (A := Q) example_matrix [2%Z] = Ok [1; 1; 0]%Q /\
   site_patterns (A := Q) example_matrix [0%Z] [1%Z] [2%Z] =
   Ok (1, 1, 1, 0, 0, 0)%Q) /\
  (derived_allele_freq (A := float) example_matrix [0%Z] = Ok [0; 1; 1]%float /\
   derived_allele_freq (A := float) example_matrix [1%Z] = Ok [1; 0; 1]%float /\
   derived_allele_freq (A := float) example_matrix [2%Z] = Ok [1; 1; 0]%float /\
   site_patterns (A := float) example_matrix [0%Z] [1%Z] [2%Z] =
   Ok (1, 1, 1, 0, 0, 0)%float).
Proof. repeat split; vm_compute; reflexivity. Qed.


(** *** The theorems at the example *)

Lemma derived_allele_freq_per_site_example :
  exists f, derived_allele_freq (A := Q) example_matrix [0%Z; 1%Z] = Ok f /\
    length f = Np.nrows (A := Q) example_matrix /\
    forall i row, nth_error (Np.rows (A := Q) example_matrix) i = Some row ->
      nth_error f i =
      Some (lineage_sum row [0%Z; 1%Z] / of_len (length [0%Z; 1%Z]))%S.
Proof.
  apply (derived_allele_freq_per_site example_matrix [0%Z; 1%Z]);
    [well_formed | discriminate | valid_cols].
Defined.

Lemma single_individual_raw_column_example :
  derived_allele_freq (A := Q) example_matrix [(-1)%Z] = Ok (column example_matrix (-1)).
Proof.
  apply (single_individual_raw_column example_matrix (-1));
    [well_formed | unfold valid_col; simpl; lia].
Defined.

Lemma site_patterns_no_rows_example :
  site_patterns (A := float) no_rows [0%Z] [1%Z] [2%Z] =
  Ok (zero, zero, zero, zero, zero, zero).
Proof.
  apply (site_patterns_no_rows no_rows [0%Z] [1%Z] [2%Z]);
    [reflexivity | valid_cols | valid_cols | valid_cols].
Defined.

Lemma binary_sums_at_most_rows_example :
  exists abba baba bbaa baaa abaa aaba,
    site_patterns (A := Q) example_matrix [0%Z; 1%Z] [1%Z] [2%Z] =
    Ok (abba, baba, bbaa, baaa, abaa, aaba) /\
    (abba <= Qsites example_matrix /\ baba <= Qsites example_matrix /\
     bbaa <= Qsites example_matrix /\ baaa <= Qsites example_matrix /\
     abaa <= Qsites example_matrix /\ aaba <= Qsites example_matrix)%Q.
Proof.
  apply (binary_sums_at_most_rows example_matrix [0%Z; 1%Z] [1%Z] [2%Z]);
    [well_formed | exact example_binary
     | discriminate | valid_cols | discriminate | valid_cols
     | discriminate | valid_cols].
Defined.

Lemma eight_sums_number_of_sites_example :
  exists f1 f2 f3 abba baba bbaa baaa abaa aaba,
    derived_allele_freq (A := Q) example_matrix [0%Z; 1%Z] = Ok f1 /\
    derived_allele_freq (A := Q) example_matrix [1%Z; 2%Z] = Ok f2 /\
    derived_allele_freq (A := Q) example_matrix [2%Z] = Ok f3 /\
    site_patterns (A := Q) example_matrix [0%Z; 1%Z] [1%Z; 2%Z] [2%Z] =
    Ok (abba, baba, bbaa, baaa, abaa, aaba) /\
    (abba + baba + bbaa + baaa + abaa + aaba +
     pattern_sum (Np.nrows (A := Q) example_matrix) BBBA f1 f2 f3 +
     pattern_sum (Np.nrows (A := Q) example_matrix) AAAA f1 f2 f3
     == Qsites example_matrix)%Q.
Proof.
  apply (eight_sums_number_of_sites example_matrix [0%Z; 1%Z] [1%Z; 2%Z] [2%Z]);
    [well_formed
     | discriminate | valid_cols | discriminate | valid_cols
     | discriminate | valid_cols].
Defined.


Lemma bootstrap_replicates_example :
  exists stats,
    length (fst (draw_replicates lcg_randint (Z.to_nat 2) 42%Z)) = Z.to_nat 2 /\
    Forall windows_of_replicate (fst (draw_replicates lcg_randint (Z.to_nat 2) 42%Z)) /\
    Forall2 (fun starts st =>
               site_patterns (A := Q)
                 (resampled_genome example_matrix example_positions starts)
                 [0%Z] [1%Z] [2%Z] = Ok st)
      (fst (draw_replicates lcg_randint (Z.to_nat 2) 42%Z)) stats /\
    genotype_matrix_bootstrap lcg_randint example_matrix example_positions 2 42%Z =
    Ok (gather stats, snd (draw_replicates lcg_randint (Z.to_nat 2) 42%Z)).
Proof.
  apply (bootstrap_replicates lcg_randint example_matrix example_positions 2 42%Z);
    [exact lcg_in_range | reflexivity | reflexivity].
Defined.

Lemma bootstrap_six_arrays_of_length_N_example :
  exists stats abba_array baba_array bbaa_array baaa_array abaa_array aaba_array g',
    Forall2 (fun starts st =>
               site_patterns (A := Q)
                 (resampled_genome example_matrix example_positions starts)
                 [0%Z] [1%Z] [2%Z] = Ok st)
      (fst (draw_replicates lcg_randint (Z.to_nat 2) 42%Z)) stats /\
    genotype_matrix_bootstrap (A := Q) lcg_randint example_matrix example_positions
      2 42%Z =
    Ok ((abba_array, baba_array, bbaa_array, baaa_array, abaa_array, aaba_array), g') /\
    (abba_array, baba_array, bbaa_array, baaa_array, abaa_array, aaba_array) =
    gather stats /\
    g' = snd (draw_replicates lcg_randint (Z.to_nat 2) 42%Z) /\
    (forall i abba baba bbaa baaa abaa aaba,
       nth_error stats i = Some (abba, baba, bbaa, baaa, abaa, aaba) ->
       nth_error abba_array i = Some abba /\ nth_error baba_array i = Some baba /\
       nth_error bbaa_array i = Some bbaa /\ nth_error baaa_array i = Some baaa /\
       nth_error abaa_array i = Some abaa /\ nth_error aaba_array i = Some aaba) /\
    Z.of_nat (length abba_array) = 2%Z /\ Z.of_nat (length baba_array) = 2%Z /\
    Z.of_nat (length bbaa_array) = 2%Z /\ Z.of_nat (length baaa_array) = 2%Z /\
    Z.of_nat (length abaa_array) = 2%Z /\ Z.of_nat (length aaba_array) = 2%Z.
Proof.
  apply (bootstrap_six_arrays_of_length_N lcg_randint example_matrix
           example_positions 2 42%Z);
    [reflexivity | reflexivity | lia].
Defined.

(** ** Further properties of the frequency calculator and of the counter *)

Section Errors.
Context {A : Type} `{Scalar A}.

Lemma normalize_index_invalid (n : nat) (j : Z) :
  ~ valid_col n j -> Np.normalize_index n j = Raise IndexError.
Proof.
  unfold valid_col, Np.normalize_index. intros Hj.
  destruct (0 <=? j)%Z eqn:E0, (j <? Z.of_nat n)%Z eqn:E1,
           (- Z.of_nat n <=? j)%Z eqn:E2, (j <? 0)%Z eqn:E3;
    cbn [andb]; try reflexivity; exfalso; apply Hj;
    rewrite ?Z.leb_le, ?Z.ltb_lt, ?Z.leb_gt, ?Z.ltb_ge in *; lia.
Qed.

Lemma valid_col_dec (n : nat) (j : Z) : {valid_col n j} + {~ valid_col n j}.
Proof.
  unfold valid_col.
  destruct (Z_le_dec (- Z.of_nat n) j), (Z_lt_dec j (Z.of_nat n));
    [left | right | right | right]; lia.
Qed.

Lemma valid_cols_dec (n : nat) (idx : list Z) :
  {Forall (valid_col n) idx} + {~ Forall (valid_col n) idx}.
Proof. apply Forall_dec, valid_col_dec. Qed.

Lemma mapM_normalize_invalid (n : nat) (idx : list Z) :
  ~ Forall (valid_col n) idx -> mapM (Np.normalize_index n) idx = Raise IndexError.
Proof.
  induction idx as [ | j idx IH]; intros Hn.
  - exfalso. apply Hn. constructor.
  - cbn [mapM]. destruct (valid_col_dec n j) as [Hj | Hj].
    + destruct (normalize_index_valid n j Hj) as [k [-> _]]. cbn [bind].
      rewrite IH; [reflexivity | ]. intros F. apply Hn. now constructor.
    + now rewrite normalize_index_invalid.
Qed.

Lemma derived_allele_freq_invalid (m : Np.ndarray2 A) (taxon : list Z) :
  ~ Forall (valid_col (Np.ncols m)) taxon ->
  derived_allele_freq m taxon = Raise IndexError.
Proof.
  intros Hn. unfold derived_allele_freq, Np.take_cols.
  now rewrite mapM_normalize_invalid.
Qed.


Lemma site_patterns_invalid (m : Np.ndarray2 A) (P1 P2 P3 : list Z) :
  ~ (Forall (valid_col (Np.ncols m)) P1 /\
     Forall (valid_col (Np.ncols m)) P2 /\
     Forall (valid_col (Np.ncols m)) P3) ->
  site_patterns m P1 P2 P3 = Raise IndexError.
Proof.
  intros Hn. unfold site_patterns.
  destruct (valid_cols_dec (Np.ncols m) P1) as [F1 | F1];
    [ | now rewrite (derived_allele_freq_invalid m P1 F1)].
  destruct (derived_allele_freq_total m P1 F1) as [f1 ->]. cbn [bind].
  destruct (valid_cols_dec (Np.ncols m) P2) as [F2 | F2];
    [ | now rewrite (derived_allele_freq_invalid m P2 F2)].
  destruct (derived_allele_freq_total m P2 F2) as [f2 ->]. cbn [bind].
  destruct (valid_cols_dec (Np.ncols m) P3) as [F3 | F3];
    [ | now rewrite (derived_allele_freq_invalid m P3 F3)].
  exfalso. apply Hn. auto.
Qed.


End Errors.

Section Symmetry.
Context {A : Type} `{Scalar A}.
Hypothesis mul_comm : forall x y : A, (x * y)%S = (y * x)%S.

Lemma mul_comm_vec (v w : list A) : Np.mul v w = Np.mul w v.
Proof.
  revert w; induction v as [ | a v IH]; intros [ | b w]; try reflexivity.
  rewrite !mul_cons, IH. f_equal. apply mul_comm.
Qed.

(** X3: exchanging the lineages P1 and P2 exchanges ABBA with BABA and BAAA
    with ABAA and leaves BBAA and AABA as they are, whenever the
    multiplication of the scalars is commutative; an exception stays the
    same exception. *)
Theorem site_patterns_exchange_P1_P2 (m : Np.ndarray2 A) (P1 P2 P3 : list Z) :
  site_patterns m P2 P1 P3 =
  match site_patterns m P1 P2 P3 with
  | Ok s => Ok (swap_P1_P2 s)
  | Raise e => Raise e
  end.
Proof.
  destruct (valid_cols_dec (Np.ncols m) P1) as [F1 | F1];
    [destruct (valid_cols_dec (Np.ncols m) P2) as [F2 | F2];
     [destruct (valid_cols_dec (Np.ncols m) P3) as [F3 | F3] | ] | ].
  2-4: now rewrite !site_patterns_invalid by tauto.
  unfold site_patterns.
  destruct (derived_allele_freq_total m P1 F1) as [f1 ->].
  destruct (derived_allele_freq_total m P2 F2) as [f2 ->].
  destruct (derived_allele_freq_total m P3 F3) as [f3 ->].
  cbn [bind swap_P1_P2].
  rewrite (mul_comm_vec (Np.rsub one f2) f1), (mul_comm_vec f2 (Np.rsub one f1)),
    (mul_comm_vec f2 f1), (mul_comm_vec (Np.rsub one f2) (Np.rsub one f1)).
  reflexivity.
Qed.

End Symmetry.

(** *** binary64: the empty lineage *)

Section EmptyLineage.
Local Open Scope float_scope.

Lemma nan_mul_l (x : float) : nan * x = nan.
Proof.
  apply Prim2SF_inj. rewrite mul_spec.
  change (Prim2SF nan) with SpecFloat.S754_nan.
  destruct (Prim2SF x); reflexivity.
Qed.

Lemma nan_mul_r (x : float) : x * nan = nan.
Proof.
  apply Prim2SF_inj. rewrite mul_spec.
  change (Prim2SF nan) with SpecFloat.S754_nan.
  destruct (Prim2SF x); reflexivity.
Qed.

Lemma product_nan (a b c : float) :
  a = nan \/ b = nan \/ c = nan -> a * b * c = nan.
Proof.
  intros [-> | [-> | ->]].
  - now rewrite !nan_mul_l.
  - now rewrite nan_mul_r, nan_mul_l.
  - now rewrite nan_mul_r.
Qed.

Lemma sum_nans (n : nat) : Np.sum (repeat nan (S n)) = nan.
Proof.
  unfold Np.sum. cbn [repeat fold_left].
  change (add zero nan) with nan.
  induction n as [ | n IH]; [reflexivity | ].
  cbn [repeat fold_left]. change (add nan nan) with nan. exact IH.
Qed.

Lemma map_constant {X Y : Type} (f : X -> Y) (y : Y) (l : list X) :
  (forall x, f x = y) -> map f l = repeat y (length l).
Proof.
  intros E. induction l as [ | x l IH]; [reflexivity | ].
  cbn [map length repeat]. now rewrite E, IH.
Qed.

(** X4: in binary64 an empty lineage raises nothing: the calculator divides
    zero by zero and returns nan for every site. *)
Theorem empty_lineage_frequencies_nan (m : Np.ndarray2 float) :
  derived_allele_freq m [] = Ok (repeat nan (Np.nrows m)).
Proof.
  unfold derived_allele_freq, Np.take_cols. cbn [mapM bind Np.rows Np.ncols length].
  unfold Np.div_scalar, Np.sum_axis1. cbn [Np.rows]. rewrite !map_map.
  f_equal. unfold Np.nrows. apply map_constant. intros row. reflexivity.
Qed.

Lemma empty_lineage_frequency (row : list float) :
  (lineage_sum row [] / of_len (length (@nil Z)))%S = nan.
Proof. reflexivity. Qed.

(** X5: in binary64, when one of the three lineages is empty and the matrix
    has a row, the counter raises nothing and all six sums are nan. *)
Theorem empty_lineage_patterns_nan (m : Np.ndarray2 float) (P1 P2 P3 : list Z) :
  Np.wf m -> Np.rows m <> [] ->
  Forall (valid_col (Np.ncols m)) P1 ->
  Forall (valid_col (Np.ncols m)) P2 ->
  Forall (valid_col (Np.ncols m)) P3 ->
  P1 = [] \/ P2 = [] \/ P3 = [] ->
  site_patterns m P1 P2 P3 = Ok (nan, nan, nan, nan, nan, nan).
Proof.
  intros Hwf Hrows V1 V2 V3 Hempty. unfold site_patterns.
  rewrite !derived_allele_freq_valid by assumption. cbn [bind].
  set (g1 := fun row => (lineage_sum row P1 / of_len (length P1))%S).
  set (g2 := fun row => (lineage_sum row P2 / of_len (length P2))%S).
  set (g3 := fun row => (lineage_sum row P3 / of_len (length P3))%S).
  assert (Hg : forall row, g1 row = nan \/ g2 row = nan \/ g3 row = nan).
  { intros row. destruct Hempty as [E | [E | E]]; subst;
      [left | right; left | right; right]; apply empty_lineage_frequency. }
  assert (Hc : forall x, x = nan -> (one - x)%S = nan) by (intros x ->; reflexivity).
  assert (V : forall u v w : float -> float,
             (forall x, x = nan -> u x = nan) ->
             (forall x, x = nan -> v x = nan) ->
             (forall x, x = nan -> w x = nan) ->
             Np.sum (Np.mul (Np.mul (map u (map g1 (Np.rows m)))
                                    (map v (map g2 (Np.rows m))))
                            (map w (map g3 (Np.rows m)))) = nan).
  { intros u v w Hu Hv Hw. rewrite mul3_by_row.
    rewrite (map_constant _ nan).
    - destruct (Np.rows m); [contradiction | apply sum_nans].
    - intros row. apply product_nan.
      destruct (Hg row) as [E | [E | E]]; auto. }
  assert (Hi : forall x : float, x = nan -> id x = nan) by auto.
  unfold Np.rsub. set (c := fun x : float => (one - x)%S) in *.
  pose proof (V c id id Hc Hi Hi) as Vabba.
  pose proof (V id c id Hi Hc Hi) as Vbaba.
  pose proof (V id id c Hi Hi Hc) as Vbbaa.
  pose proof (V id c c Hi Hc Hc) as Vbaaa.
  pose proof (V c id c Hc Hi Hc) as Vabaa.
  pose proof (V c c id Hc Hc Hi) as Vaaba.
  rewrite !map_id in *.
  now rewrite Vabba, Vbaba, Vbbaa, Vbaaa, Vabaa, Vaaba.
Qed.

End EmptyLineage.

(** *** Exact arithmetic: ranges, order of the individuals, sums of matrices *)

Ltac rational_ops :=
  unfold ABBA, BABA, BBAA, BAAA, ABAA, AABA, D_term, D_anc_term;
  cbn [add sub mul div zero one Q_scalar].

Section ExactMore.
Local Open Scope Q_scope.

Lemma genotype_In (row : list Q) (j : Z) :
  valid_col (length row) j -> In (genotype row j) row.
Proof.
  intros Hj. unfold genotype.
  destruct (normalize_index_valid _ _ Hj) as [k [-> Hk]]. now apply nth_In.
Qed.

Lemma lineage_sum_range (lo hi : Q) (row : list Q) (taxon : list Z) :
  Forall (valid_col (length row)) taxon ->
  Forall (fun x => lo <= x <= hi) row ->
  lo * inject_Z (Z.of_nat (length taxon)) <= lineage_sum row taxon
  <= hi * inject_Z (Z.of_nat (length taxon)).
Proof.
  intros Hv Hrow. unfold lineage_sum.
  assert (G : forall z,
             z + lo * inject_Z (Z.of_nat (length taxon))
             <= fold_left (fun acc j => (acc + genotype row j)%S) taxon z
             <= z + hi * inject_Z (Z.of_nat (length taxon))).
  { induction Hv as [ | j taxon Hj _ IH]; intros z.
    - simpl. change (inject_Z 0) with 0. lra.
    - cbn [fold_left length]. rewrite inject_Z_S.
      rewrite Forall_forall in Hrow.
      destruct (Hrow _ (genotype_In row j Hj)) as [G0 G1].
      specialize (IH (z + genotype row j)%S). simpl in IH |- *. lra. }
  specialize (G zero). simpl in G |- *. lra.
Qed.

(** X6: a frequency is a mean: when every entry of the matrix lies between
    [lo] and [hi], so does every frequency of a non-empty lineage (between 0
    and 2 for dosages, between 0 and 1 for zeros and ones). *)
Theorem frequencies_within_range (lo hi : Q) (m : Np.ndarray2 Q) (taxon : list Z) :
  Np.wf m -> taxon <> [] -> Forall (valid_col (Np.ncols m)) taxon ->
  Forall (Forall (fun x => lo <= x <= hi)) (Np.rows m) ->
  exists f, derived_allele_freq m taxon = Ok f /\ Forall (fun x => lo <= x <= hi) f.
Proof.
  intros Hwf Hne Hv Hm. eexists. split; [now apply derived_allele_freq_valid | ].
  apply Forall_map. unfold Np.wf in Hwf.
  rewrite Forall_forall in Hwf, Hm |- *. intros row Hin.
  assert (K : 0 < inject_Z (Z.of_nat (length taxon))).
  { replace 0 with (inject_Z 0) by reflexivity. rewrite <- Zlt_Qlt.
    destruct taxon; [congruence | simpl; lia]. }
  assert (Hv' : Forall (valid_col (length row)) taxon) by now rewrite (Hwf row Hin).
  destruct (lineage_sum_range lo hi row taxon Hv' (Hm row Hin)) as [L U].
  simpl. split.
  - apply Qle_shift_div_l; [exact K | exact L].
  - apply Qle_shift_div_r; [exact K | exact U].
Qed.

Lemma lineage_sum_sum (row : list Q) (taxon : list Z) :
  lineage_sum row taxon = Np.sum (map (genotype row) taxon).
Proof. unfold lineage_sum, Np.sum. now rewrite fold_left_add_map. Qed.

(** X7: in exact arithmetic the order in which a lineage lists its
    individuals does not matter. *)
Theorem frequencies_individual_order (m : Np.ndarray2 Q) (taxon taxon' : list Z) :
  Np.wf m -> taxon <> [] -> Forall (valid_col (Np.ncols m)) taxon ->
  Permutation taxon taxon' ->
  exists f f',
    derived_allele_freq m taxon = Ok f /\ derived_allele_freq m taxon' = Ok f' /\
    frequencies_eq f f'.
Proof.
  intros Hwf _ Hv P.
  assert (Hv' : Forall (valid_col (Np.ncols m)) taxon')
    by (eapply Permutation_Forall; eassumption).
  do 2 eexists. split; [now apply derived_allele_freq_valid | ].
  split; [now apply derived_allele_freq_valid | ].
  unfold frequencies_eq. rewrite <- (Permutation_length P).
  induction (Np.rows m) as [ | row l IH]; cbn [map]; constructor; [ | exact IH].
  rewrite !lineage_sum_sum. simpl.
  rewrite (sum_Permutation _ _ (Permutation_map (genotype row) P)). reflexivity.
Qed.

Lemma sum_app (l l' : list Q) : Np.sum (l ++ l') == Np.sum l + Np.sum l'.
Proof.
  induction l as [ | x l IH]; cbn [app].
  - unfold Np.sum at 2. simpl. ring.
  - rewrite !sum_cons, IH. ring.
Qed.

Lemma pattern_app (u v w : Q -> Q) (g1 g2 g3 : list Q -> Q) (l l' : list (list Q)) :
  Np.sum (Np.mul (Np.mul (map u (map g1 (l ++ l'))) (map v (map g2 (l ++ l'))))
                 (map w (map g3 (l ++ l'))))
  == Np.sum (Np.mul (Np.mul (map u (map g1 l)) (map v (map g2 l))) (map w (map g3 l)))
   + Np.sum (Np.mul (Np.mul (map u (map g1 l')) (map v (map g2 l'))) (map w (map g3 l'))).
Proof. rewrite !mul3_by_row, map_app. apply sum_app. Qed.

(** X8: in exact arithmetic the six sums of two matrices concatenated are
    the sums of the six sums of either: a genome assembled from windows has
    the statistics of its windows added up. *)
Theorem site_patterns_concatenate (a b : Np.ndarray2 Q) (P1 P2 P3 : list Z) :
  Np.wf a -> Np.wf b -> Np.ncols b = Np.ncols a ->
  P1 <> [] -> Forall (valid_col (Np.ncols a)) P1 ->
  P2 <> [] -> Forall (valid_col (Np.ncols a)) P2 ->
  P3 <> [] -> Forall (valid_col (Np.ncols a)) P3 ->
  exists c sa sb sc,
    Np.concatenate a b = Ok c /\
    site_patterns a P1 P2 P3 = Ok sa /\ site_patterns b P1 P2 P3 = Ok sb /\
    site_patterns c P1 P2 P3 = Ok sc /\
    patterns_eq sc (patterns_add sa sb).
Proof.
  intros Ha Hb Ec _ V1 _ V2 _ V3.
  set (c := Np.mk (Np.ncols a) (Np.rows a ++ Np.rows b)).
  assert (Hc : Np.wf c).
  { unfold Np.wf in *. cbn [Np.rows Np.ncols c]. apply Forall_app. split; [exact Ha | ].
    now rewrite <- Ec. }
  exists c. unfold Np.concatenate. rewrite Ec, Nat.eqb_refl.
  unfold site_patterns.
  rewrite !(derived_allele_freq_valid a) by assumption.
  rewrite !(derived_allele_freq_valid b) by (rewrite ?Ec; assumption).
  rewrite !(derived_allele_freq_valid c) by assumption.
  cbn [bind Np.rows c]. do 3 eexists.
  split; [reflexivity | ]. split; [reflexivity | ]. split; [reflexivity | ].
  split; [reflexivity | ].
  unfold patterns_eq, patterns_add, Np.rsub.
  set (k := fun x : Q => (one - x)%S).
  pose proof (fun u v w g1 g2 g3 =>
                pattern_app u v w g1 g2 g3 (Np.rows a) (Np.rows b)) as V.
  set (g1 := fun row => (lineage_sum row P1 / of_len (length P1))%S) in *.
  set (g2 := fun row => (lineage_sum row P2 / of_len (length P2))%S) in *.
  set (g3 := fun row => (lineage_sum row P3 / of_len (length P3))%S) in *.
  pose proof (V k id id g1 g2 g3) as Vabba.
  pose proof (V id k id g1 g2 g3) as Vbaba.
  pose proof (V id id k g1 g2 g3) as Vbbaa.
  pose proof (V id k k g1 g2 g3) as Vbaaa.
  pose proof (V k id k g1 g2 g3) as Vabaa.
  pose proof (V k k id g1 g2 g3) as Vaaba.
  rewrite !map_id in *.
  repeat split; assumption.
Qed.

Lemma pattern_sum_differences (n : nat) (f1 f2 f3 : list Q) :
  pattern_sum n ABBA f1 f2 f3 - pattern_sum n BABA f1 f2 f3
  == pattern_sum n D_term f1 f2 f3 /\
  pattern_sum n BAAA f1 f2 f3 - pattern_sum n ABAA f1 f2 f3
  == pattern_sum n D_anc_term f1 f2 f3.
Proof.
  unfold pattern_sum. induction n as [ | n [IH1 IH2]].
  - split; reflexivity.
  - rewrite !site_sum_S, <- IH1, <- IH2. rational_ops.
    split; ring.
Qed.

(** X9: in exact arithmetic ABBA - BABA is the sum over the sites of
    (f2 - f1) * f3, and BAAA - ABAA the sum of (f1 - f2) * (1 - f3). *)
Theorem pattern_differences (m : Np.ndarray2 Q) (P1 P2 P3 : list Z) :
  Np.wf m ->
  P1 <> [] -> Forall (valid_col (Np.ncols m)) P1 ->
  P2 <> [] -> Forall (valid_col (Np.ncols m)) P2 ->
  P3 <> [] -> Forall (valid_col (Np.ncols m)) P3 ->
  exists f1 f2 f3 abba baba bbaa baaa abaa aaba,
    derived_allele_freq m P1 = Ok f1 /\
    derived_allele_freq m P2 = Ok f2 /\
    derived_allele_freq m P3 = Ok f3 /\
    site_patterns m P1 P2 P3 = Ok (abba, baba, bbaa, baaa, abaa, aaba) /\
    abba - baba == pattern_sum (Np.nrows m) D_term f1 f2 f3 /\
    baaa - abaa == pattern_sum (Np.nrows m) D_anc_term f1 f2 f3.
Proof.
  intros Hwf _ V1 _ V2 _ V3.
  pose proof (derived_allele_freq_valid m P1 Hwf V1) as E1.
  pose proof (derived_allele_freq_valid m P2 Hwf V2) as E2.
  pose proof (derived_allele_freq_valid m P3 Hwf V3) as E3.
  do 9 eexists. split; [exact E1 | ]. split; [exact E2 | ]. split; [exact E3 | ].
  split; [exact (site_patterns_of_frequencies m P1 P2 P3 _ _ _ E1 E2 E3) | ].
  apply pattern_sum_differences.
Qed.

Lemma site_sum_nonneg (n : nat) (term : nat -> Q) :
  (forall i, (i < n)%nat -> 0 <= term i) -> 0 <= site_sum n term.
Proof.
  induction n as [ | n IH]; intros Hle.
  - apply Qle_refl.
  - rewrite site_sum_S.
    assert (0 <= site_sum n term) by (apply IH; intros i Hi; apply Hle; lia).
    assert (0 <= term n) by (apply Hle; lia). lra.
Qed.

Lemma pattern_sum_nonneg (n : nat) (u v w : Q -> Q) (f1 f2 f3 : list Q) :
  (forall a, unit_interval a -> unit_interval (u a)) ->
  (forall a, unit_interval a -> unit_interval (v a)) ->
  (forall a, unit_interval a -> unit_interval (w a)) ->
  Forall unit_interval f1 -> Forall unit_interval f2 -> Forall unit_interval f3 ->
  0 <= pattern_sum n (fun a b c => u a * v b * w c) f1 f2 f3.
Proof.
  intros Hu Hv Hw H1 H2 H3. unfold pattern_sum. apply site_sum_nonneg. intros i _.
  destruct (Hu _ (at_site_unit f1 i H1)) as [U0 _].
  destruct (Hv _ (at_site_unit f2 i H2)) as [V0 _].
  destruct (Hw _ (at_site_unit f3 i H3)) as [W0 _].
  apply Qmult_le_0_compat; [apply Qmult_le_0_compat | ]; assumption.
Qed.

(** X10: on a matrix of zeros and ones none of the six sums is negative. *)
Theorem binary_sums_nonnegative (m : Np.ndarray2 Q) (P1 P2 P3 : list Z) :
  Np.wf m -> binary m ->
  P1 <> [] -> Forall (valid_col (Np.ncols m)) P1 ->
  P2 <> [] -> Forall (valid_col (Np.ncols m)) P2 ->
  P3 <> [] -> Forall (valid_col (Np.ncols m)) P3 ->
  exists abba baba bbaa baaa abaa aaba,
    site_patterns m P1 P2 P3 = Ok (abba, baba, bbaa, baaa, abaa, aaba) /\
    0 <= abba /\ 0 <= baba /\ 0 <= bbaa /\ 0 <= baaa /\ 0 <= abaa /\ 0 <= aaba.
Proof.
  intros Hwf B N1 V1 N2 V2 N3 V3.
  rewrite (site_patterns_of_frequencies m P1 P2 P3 _ _ _
             (derived_allele_freq_valid m P1 Hwf V1)
             (derived_allele_freq_valid m P2 Hwf V2)
             (derived_allele_freq_valid m P3 Hwf V3)).
  pose proof (frequencies_unit m P1 B N1) as U1.
  pose proof (frequencies_unit m P2 B N2) as U2.
  pose proof (frequencies_unit m P3 B N3) as U3.
  do 6 eexists. split; [reflexivity | ].
  pose proof complement_unit as Hc.
  assert (Hi : forall a, unit_interval a -> unit_interval a) by auto.
  repeat split.
  - exact (pattern_sum_nonneg _ (fun a => 1 - a) (fun a => a) (fun a => a) _ _ _ Hc Hi Hi U1 U2 U3).
  - exact (pattern_sum_nonneg _ (fun a => a) (fun a => 1 - a) (fun a => a) _ _ _ Hi Hc Hi U1 U2 U3).
  - exact (pattern_sum_nonneg _ (fun a => a) (fun a => a) (fun a => 1 - a) _ _ _ Hi Hi Hc U1 U2 U3).
  - exact (pattern_sum_nonneg _ (fun a => a) (fun a => 1 - a) (fun a => 1 - a) _ _ _ Hi Hc Hc U1 U2 U3).
  - exact (pattern_sum_nonneg _ (fun a => 1 - a) (fun a => a) (fun a => 1 - a) _ _ _ Hc Hi Hc U1 U2 U3).
  - exact (pattern_sum_nonneg _ (fun a => 1 - a) (fun a => 1 - a) (fun a => a) _ _ _ Hc Hc Hi U1 U2 U3).
Qed.

End ExactMore.

(** ** Further properties of the block bootstrap driver *)

Section DriverMore.
Context {A : Type} `{Scalar A}.
Context {G : Type}.
Variable randint : Z -> G -> Z * G.

Lemma take_rows_row_at (m : Np.ndarray2 A) (idx : list Z) :
  Np.take_rows m idx = rs <- mapM (row_at m) idx ;; Ok (Np.mk (Np.ncols m) rs).
Proof. reflexivity. Qed.

Lemma take_where_rows_short (m : Np.ndarray2 A) (lo : Z) :
  forall (positions : list Z) (pre rest : list (list A)),
  Np.rows m = pre ++ rest -> length positions <= length rest ->
  mapM (row_at m)
    (Np.where_between_from (Z.of_nat (length pre)) lo (lo + 100000) positions) =
  Ok (map snd (filter (in_window lo) (combine positions rest))).
Proof.
  induction positions as [ | p positions IH]; intros pre rest Em El.
  - reflexivity.
  - destruct rest as [ | r rest]; [cbn [length] in El; lia | ].
    cbn [length] in El. apply le_S_n in El.
    assert (Em' : Np.rows m = (pre ++ [r]) ++ rest) by now rewrite <- app_assoc.
    specialize (IH (pre ++ [r]) rest Em' El).
    rewrite length_app, Nat2Z.inj_add in IH. cbn [length Z.of_nat Pos.of_succ_nat] in IH.
    cbn [Np.where_between_from combine filter]. unfold in_window at 1. cbn [fst].
    destruct ((lo <=? p) && (p <=? lo + 100000))%Z.
    + cbn [mapM map snd]. unfold row_at at 1.
      rewrite normalize_index_of_nat
        by (unfold Np.nrows; rewrite Em, length_app; simpl; lia).
      cbn [bind]. rewrite Em at 1. rewrite nth_error_app2 by lia.
      rewrite Nat.sub_diag. cbn [nth_error bind]. now rewrite IH.
    + exact IH.
Qed.

Lemma take_rows_window_short (m : Np.ndarray2 A) (positions : list Z) (start : Z) :
  length positions <= Np.nrows m ->
  Np.take_rows m (Np.where_between start (start + 100000) positions) =
  Ok (Np.mk (Np.ncols m) (window_rows m positions start)).
Proof.
  intros El. rewrite take_rows_row_at. unfold Np.where_between.
  pose proof (take_where_rows_short m start positions [] (Np.rows m) eq_refl El) as E.
  cbn [length Z.of_nat] in E. now rewrite E.
Qed.

(** X11: when the matrix does not have three columns the driver raises a
    value error in its first window, whatever is drawn, provided the
    positions do not outnumber the rows and one replicate at least is asked
    for. *)
Theorem bootstrap_raises_on_other_widths (m : Np.ndarray2 A) (positions : list Z)
  (N : Z) (g : G) :
  Np.ncols m <> 3 -> length positions <= Np.nrows m -> (1 <= N)%Z ->
  genotype_matrix_bootstrap randint m positions N g = Raise ValueError.
Proof.
  intros Ec El HN. unfold genotype_matrix_bootstrap.
  destruct (Z.to_nat N) as [ | n] eqn:En; [lia | ].
  change (S n) with (1 + n). rewrite for_range_add.
  cbn [for_range]. unfold replicate_step at 1.
  change 1000 with (1 + 999). rewrite for_range_add.
  cbn [for_range]. unfold window_step at 1, Np.empty0.
  destruct (randint 99900001 g) as [start g1].
  rewrite take_rows_window_short by assumption. cbn [bind].
  unfold Np.concatenate. cbn [Np.ncols].
  destruct (Nat.eqb_spec 3 (Np.ncols m)) as [E | _]; [congruence | reflexivity].
Qed.

(** X12: asked for no replicate, or for a negative number of them, the
    driver returns six empty arrays; it draws nothing and does not look at
    the matrix or at the positions. *)
Theorem bootstrap_without_replicates (m : Np.ndarray2 A) (positions : list Z)
  (N : Z) (g : G) :
  (N <= 0)%Z ->
  genotype_matrix_bootstrap randint m positions N g = Ok (no_arrays, g).
Proof.
  intros HN. unfold genotype_matrix_bootstrap.
  replace (Z.to_nat N) with 0 by lia. reflexivity.
Qed.

Lemma arrays_app_assoc3 (x y z : @arrays A) :
  arrays_app (arrays_app x y) z = arrays_app x (arrays_app y z).
Proof.
  destruct x as [[[[[x1 x2] x3] x4] x5] x6], y as [[[[[y1 y2] y3] y4] y5] y6],
           z as [[[[[z1 z2] z3] z4] z5] z6].
  cbn [arrays_app]. now rewrite <- !app_assoc.
Qed.

Lemma arrays_app_no_arrays (x : @arrays A) : arrays_app x no_arrays = x.
Proof.
  destruct x as [[[[[x1 x2] x3] x4] x5] x6].
  unfold no_arrays. cbn [arrays_app]. now rewrite !app_nil_r.
Qed.

(** The arrays the loop starts from are only ever extended. *)
Lemma replicate_step_prefix (m : Np.ndarray2 A) (positions : list Z)
  (arrs : @arrays A) (g : G) :
  replicate_step randint m positions (arrs, g) =
  '(a, g') <- replicate_step randint m positions (no_arrays, g) ;;
  Ok (arrays_app arrs a, g').
Proof.
  destruct arrs as [[[[[a1 a2] a3] a4] a5] a6].
  unfold replicate_step, no_arrays.
  destruct (for_range 1000 _ _) as [[bg g1] | e]; [ | reflexivity].
  cbn [bind].
  destruct (site_patterns bg [0%Z] [1%Z] [2%Z]) as [s | e]; [ | reflexivity].
  destruct s as [[[[[abba baba] bbaa] baaa] abaa] aaba]. reflexivity.
Qed.

Lemma replicates_prefix (m : Np.ndarray2 A) (positions : list Z) :
  forall (n : nat) (arrs : @arrays A) (g : G),
  for_range n (replicate_step randint m positions) (arrs, g) =
  '(a, g') <- for_range n (replicate_step randint m positions) (no_arrays, g) ;;
  Ok (arrays_app arrs a, g').
Proof.
  induction n as [ | n IH]; intros arrs g.
  - cbn. now rewrite arrays_app_no_arrays.
  - cbn [for_range]. rewrite replicate_step_prefix.
    destruct (replicate_step randint m positions (no_arrays, g)) as [[a g1] | e];
      [ | reflexivity].
    cbn [bind]. rewrite (IH (arrays_app arrs a)), (IH a).
    destruct (for_range n _ (no_arrays, g1)) as [[a' g2] | e]; [ | reflexivity].
    cbn [bind]. now rewrite arrays_app_assoc3.
Qed.

Lemma bootstrap_loop (m : Np.ndarray2 A) (positions : list Z) (N : Z) (g : G) :
  genotype_matrix_bootstrap randint m positions N g =
  for_range (Z.to_nat N) (replicate_step randint m positions) (no_arrays, g).
Proof. reflexivity. Qed.

(** X13: replicates follow one another independently but for the random
    state: N1 + N2 replicates are N1 replicates, then N2 replicates run from
    the state the first run left, with the six arrays of the second run
    after those of the first; an exception of either run is the exception of
    the whole. *)
Theorem bootstrap_replicates_in_two_runs (m : Np.ndarray2 A) (positions : list Z)
  (N1 N2 : Z) (g : G) :
  (0 <= N1)%Z -> (0 <= N2)%Z ->
  genotype_matrix_bootstrap randint m positions (N1 + N2) g =
  '(a1, g1) <- genotype_matrix_bootstrap randint m positions N1 g ;;
  '(a2, g2) <- genotype_matrix_bootstrap randint m positions N2 g1 ;;
  Ok (arrays_app a1 a2, g2).
Proof.
  intros H1 H2. rewrite !bootstrap_loop.
  rewrite Z2Nat.inj_add by assumption. rewrite for_range_add.
  destruct (for_range (Z.to_nat N1) (replicate_step randint m positions)
              (no_arrays, g)) as [[a1 g1] | e]; [ | reflexivity].
  cbn [bind]. rewrite bootstrap_loop. now rewrite replicates_prefix.
Qed.

End DriverMore.

Section Reach.
Context {A : Type} `{Scalar A}.
Context {G : Type}.
Variable randint : Z -> G -> Z * G.

Lemma row_at_cases (m : Np.ndarray2 A) (i : Z) :
  (exists r, row_at m i = Ok r) \/ row_at m i = Raise IndexError.
Proof.
  unfold row_at, Np.normalize_index.
  destruct ((0 <=? i) && (i <? Z.of_nat (Np.nrows m)))%Z; cbn [bind].
  - destruct (nth_error _ _) as [r | ]; [left; now exists r | now right].
  - destruct ((- Z.of_nat (Np.nrows m) <=? i) && (i <? 0))%Z; cbn [bind];
      [ | now right].
    destruct (nth_error _ _) as [r | ]; [left; now exists r | now right].
Qed.

Lemma row_at_surplus (m : Np.ndarray2 A) (idx : nat) :
  Np.nrows m <= idx -> row_at m (Z.of_nat idx) = Raise IndexError.
Proof.
  intros Hi. unfold row_at. rewrite normalize_index_invalid; [reflexivity | ].
  unfold valid_col. lia.
Qed.

Lemma mapM_raises {X Y : Type} (f : X -> result Y) (l : list X) :
  (forall x, (exists y, f x = Ok y) \/ f x = Raise IndexError) ->
  Exists (fun x => f x = Raise IndexError) l ->
  mapM f l = Raise IndexError.
Proof.
  intros Hf. induction 1 as [x l Hx | x l _ IH]; cbn [mapM].
  - now rewrite Hx.
  - destruct (Hf x) as [[y ->] | ->]; [ | reflexivity].
    cbn [bind]. now rewrite IH.
Qed.

Lemma where_between_from_In (lo hi : Z) :
  forall (positions : list Z) (i0 : Z) (idx : nat) (p : Z),
  nth_error positions idx = Some p -> (lo <= p <= hi)%Z ->
  In (i0 + Z.of_nat idx)%Z (Np.where_between_from i0 lo hi positions).
Proof.
  induction positions as [ | q positions IH]; intros i0 idx p Hn Hp.
  - destruct idx; discriminate.
  - cbn [Np.where_between_from]. destruct idx as [ | idx].
    + injection Hn as ->.
      assert (E : ((lo <=? p) && (p <=? hi))%Z = true)
        by (apply andb_true_intro; split; apply Z.leb_le; lia).
      rewrite E. left. cbn [Z.of_nat]. lia.
    + cbn [nth_error] in Hn. pose proof (IH (i0 + 1)%Z idx p Hn Hp) as Hin.
      replace (i0 + Z.of_nat (S idx))%Z with (i0 + 1 + Z.of_nat idx)%Z by lia.
      destruct ((lo <=? q) && (q <=? hi))%Z; [now right | exact Hin].
Qed.

(** X14: a position that has no row makes the driver raise an index error
    as soon as a window covers it; here, when the first window does. *)
Theorem bootstrap_raises_on_surplus_position (m : Np.ndarray2 A) (positions : list Z)
  (N : Z) (g : G) (idx : nat) (p : Z) :
  (1 <= N)%Z -> nth_error positions idx = Some p -> Np.nrows m <= idx ->
  (fst (randint 99900001 g) <= p <= fst (randint 99900001 g) + 100000)%Z ->
  genotype_matrix_bootstrap randint m positions N g = Raise IndexError.
Proof.
  intros HN Hn Hi Hp. unfold genotype_matrix_bootstrap.
  destruct (Z.to_nat N) as [ | n] eqn:En; [lia | ].
  change (S n) with (1 + n). rewrite for_range_add.
  cbn [for_range]. unfold replicate_step at 1.
  change 1000 with (1 + 999). rewrite for_range_add.
  cbn [for_range]. unfold window_step at 1, Np.empty0.
  destruct (randint 99900001 g) as [start g1]. cbn [fst] in Hp.
  rewrite take_rows_row_at, (mapM_raises (row_at m)); [reflexivity | | ].
  - apply row_at_cases.
  - apply Exists_exists. exists (Z.of_nat idx). split.
    + unfold Np.where_between.
      exact (where_between_from_In start (start + 100000) positions 0 idx p Hn Hp).
    + now apply row_at_surplus.
Qed.

Lemma for_range_ext {S : Type} (body body' : S -> result S) :
  (forall s, body s = body' s) ->
  forall (n : nat) (s : S), for_range n body s = for_range n body' s.
Proof.
  intros E. induction n as [ | n IH]; intros s; cbn [for_range]; [reflexivity | ].
  rewrite E. destruct (body' s) as [s' | e]; cbn [bind]; [apply IH | reflexivity].
Qed.

Lemma combine_fst_snd {X Y : Type} (l : list (X * Y)) :
  combine (map fst l) (map snd l) = l.
Proof.
  induction l as [ | [x y] l IH]; [reflexivity | ]. cbn [map combine fst snd].
  now rewrite IH.
Qed.

Lemma in_window_within_reach (start : Z) (pr : Z * list A) :
  (0 <= start <= 99900000)%Z -> in_window start pr = true ->
  within_reach (fst pr) = true.
Proof.
  unfold in_window, within_reach. intros Hs Hw.
  apply andb_true_iff in Hw. destruct Hw as [L U].
  apply Z.leb_le in L, U.
  apply andb_true_intro. split; apply Z.leb_le; lia.
Qed.

Lemma filter_window_reachable (start : Z) (l : list (Z * list A)) :
  (0 <= start <= 99900000)%Z ->
  filter (in_window start) (filter (fun pr => within_reach (fst pr)) l) =
  filter (in_window start) l.
Proof.
  intros Hs. induction l as [ | pr l IH]; [reflexivity | ].
  cbn [filter]. destruct (within_reach (fst pr)) eqn:R.
  - cbn [filter]. now rewrite IH.
  - rewrite IH. destruct (in_window start pr) eqn:W; [ | reflexivity].
    rewrite (in_window_within_reach start pr Hs W) in R. discriminate.
Qed.

Lemma window_rows_reachable (m : Np.ndarray2 A) (positions : list Z) (start : Z) :
  (0 <= start <= 99900000)%Z ->
  window_rows (reachable_sites m positions) (reachable_positions m positions) start =
  window_rows m positions start.
Proof.
  intros Hs. unfold window_rows, reachable_sites, reachable_positions.
  cbn [Np.rows]. now rewrite combine_fst_snd, filter_window_reachable.
Qed.

Lemma window_step_reachable (m : Np.ndarray2 A) (positions : list Z) :
  randint_in_range randint -> length positions <= Np.nrows m ->
  forall st,
  window_step randint (reachable_sites m positions) (reachable_positions m positions) st =
  window_step randint m positions st.
Proof.
  intros R El [bg g]. unfold window_step.
  pose proof (R 99900001%Z g eq_refl) as Rg.
  destruct (randint 99900001 g) as [start g1]. cbn [fst] in Rg.
  rewrite (take_rows_window_short m positions) by assumption.
  rewrite take_rows_window_short
    by (unfold reachable_sites, reachable_positions, Np.nrows; cbn [Np.rows];
        now rewrite !length_map).
  rewrite window_rows_reachable by lia. reflexivity.
Qed.

Lemma replicate_step_reachable (m : Np.ndarray2 A) (positions : list Z) :
  randint_in_range randint -> length positions <= Np.nrows m ->
  forall st,
  replicate_step randint (reachable_sites m positions)
    (reachable_positions m positions) st =
  replicate_step randint m positions st.
Proof.
  intros R El [[[[[[a1 a2] a3] a4] a5] a6] g]. unfold replicate_step.
  now rewrite (for_range_ext _ _ (window_step_reachable m positions R El)).
Qed.

(** X15: a site whose position is negative or beyond 100,000,000, and a row
    that has no position, never enter a bootstrapped genome: the driver
    returns the same on the input without them. *)
Theorem bootstrap_ignores_unreachable_sites (m : Np.ndarray2 A) (positions : list Z)
  (N : Z) (g : G) :
  randint_in_range randint -> length positions <= Np.nrows m ->
  genotype_matrix_bootstrap randint (reachable_sites m positions)
    (reachable_positions m positions) N g =
  genotype_matrix_bootstrap randint m positions N g.
Proof.
  intros R El. unfold genotype_matrix_bootstrap.
  apply for_range_ext. now apply replicate_step_reachable.
Qed.

End Reach.

(** ** The files of the script *)

Section Paths.
Import Stdlib.Strings.Ascii Stdlib.Strings.String.
Local Open Scope string_scope.

Lemma append_cancel_l (s a b : string) : s ++ a = s ++ b -> a = b.
Proof.
  induction s as [ | c s IH]; cbn [append]; intros E; [exact E | ].
  injection E as E. now apply IH.
Qed.

Lemma append_assoc_r (a b c : string) : (a ++ b) ++ c = a ++ b ++ c.
Proof.
  induction a as [ | x a IH]; cbn [append]; [reflexivity | now rewrite IH].
Qed.

Lemma split_at_char (c : Ascii.ascii) :
  forall a b x y : string,
  Script.free_of c a -> Script.free_of c b ->
  a ++ String c x = b ++ String c y -> a = b /\ x = y.
Proof.
  unfold Script.free_of.
  induction a as [ | d a IH]; intros [ | d' b] x y Ha Hb E; cbn [append] in E.
  - injection E as E. now split.
  - injection E as E1 E2. exfalso. apply Hb. left. now symmetry.
  - injection E as E1 E2. exfalso. apply Ha. now left.
  - injection E as E1 E2. subst d'.
    destruct (IH b x y) as [Eab Exy]; [ | | exact E2 | ].
    + intros Hin. apply Ha. now right.
    + intros Hin. apply Hb. now right.
    + split; [now f_equal | exact Exy].
Qed.

Lemma digits_free_of_underscore (d : Decimal.uint) :
  Script.free_of "_"%char (DecimalString.NilEmpty.string_of_uint d).
Proof.
  unfold Script.free_of.
  induction d; cbn [DecimalString.NilEmpty.string_of_uint list_ascii_of_string];
    [intros [] | intros [E | Hin]; [discriminate E | now apply IHd] ..].
Qed.

Lemma str_free_of_underscore (n : Z) : Script.free_of "_"%char (Script.str n).
Proof.
  assert (U : forall d, Script.free_of "_"%char (DecimalString.NilZero.string_of_uint d)).
  { intros d. destruct d; try apply digits_free_of_underscore.
    unfold Script.free_of. cbn. intros [E | []]. discriminate E. }
  unfold Script.str. destruct (Z.to_int n) as [d | d];
    cbn [DecimalString.NilZero.string_of_int]; [apply U | ].
  unfold Script.free_of. cbn [list_ascii_of_string].
  intros [E | Hin]; [discriminate E | now apply (U d)].
Qed.

Lemma to_int_proper (n : Z) :
  Z.to_int n <> Decimal.Pos Decimal.Nil /\ Z.to_int n <> Decimal.Neg Decimal.Nil.
Proof.
  destruct n as [ | p | p]; cbn [Z.to_int]; split; try discriminate;
    intros E; injection E as E; now apply DecimalPos.Unsigned.to_uint_nonnil in E.
Qed.

(** Distinct integers are written differently. *)
Lemma str_inj (n n' : Z) : Script.str n = Script.str n' -> n = n'.
Proof.
  unfold Script.str. intros E. apply DecimalZ.to_int_inj.
  destruct (to_int_proper n) as [P N], (to_int_proper n') as [P' N'].
  pose proof (DecimalString.NilZero.isi (Z.to_int n) P N) as I.
  pose proof (DecimalString.NilZero.isi (Z.to_int n') P' N') as I'.
  rewrite E in I. congruence.
Qed.

(** X16: for every error population and replicate, the two files the
    script reads and the six it writes are eight different files. *)
Theorem script_files_distinct (err_pop : string) (rep_id : Z) :
  NoDup (Script.geno_mat_path err_pop rep_id :: Script.var_pos_path err_pop rep_id
         :: Script.result_paths err_pop rep_id).
Proof.
  unfold Script.result_paths, Script.geno_mat_path, Script.var_pos_path,
    Script.results_prefix.
  repeat (apply NoDup_cons; [cbn [In]; intros Hin | ]); [ .. | apply NoDup_nil];
    repeat (destruct Hin as [Hin | Hin]); try contradiction;
    try (cbn [append] in Hin; discriminate Hin);
    apply append_cancel_l in Hin; discriminate Hin.
Qed.

(** X17: two different replicates of one error population never write to
    the same file. *)
Theorem script_results_of_replicates_disjoint (err_pop : string) (rep_id rep_id' : Z)
  (path : string) :
  rep_id <> rep_id' ->
  In path (Script.result_paths err_pop rep_id) ->
  ~ In path (Script.result_paths err_pop rep_id').
Proof.
  unfold Script.result_paths, Script.results_prefix. cbn [In].
  intros Hne Hin Hin'. apply Hne. apply str_inj.
  repeat (destruct Hin as [Hin | Hin]); try contradiction;
    repeat (destruct Hin' as [Hin' | Hin']); try contradiction;
    rewrite <- Hin' in Hin; clear Hin';
    rewrite !append_assoc_r in Hin;
    do 3 apply append_cancel_l in Hin;
    cbn [append] in Hin;
    (destruct (split_at_char "_"%char _ _ _ _ (str_free_of_underscore _)
                 (str_free_of_underscore _) Hin) as [E _]; now symmetry).
Qed.

End Paths.

(** ** Indices from the end, one lineage twice, and a genome out of reach *)

Section MoreEdges.
Context {A : Type} `{Scalar A}.

Lemma normalize_index_from_end (n : nat) (j : Z) :
  (0 <= j < Z.of_nat n)%Z ->
  Np.normalize_index n (j - Z.of_nat n) = Np.normalize_index n j.
Proof.
  intros Hj. unfold Np.normalize_index.
  assert (E0 : (0 <=? j)%Z = true) by (apply Z.leb_le; lia).
  assert (E1 : (j <? Z.of_nat n)%Z = true) by (apply Z.ltb_lt; lia).
  assert (E2 : (0 <=? j - Z.of_nat n)%Z = false) by (apply Z.leb_gt; lia).
  assert (E3 : (- Z.of_nat n <=? j - Z.of_nat n)%Z = true) by (apply Z.leb_le; lia).
  assert (E4 : (j - Z.of_nat n <? 0)%Z = true) by (apply Z.ltb_lt; lia).
  rewrite E0, E1, E2, E3, E4. cbn [andb]. f_equal. lia.
Qed.

(** X18: a column may be named from the end: the index [j - ncols] stands
    for the column [j], and the calculator returns the same frequencies for
    a lineage whichever way its columns are named. *)
Theorem derived_allele_freq_from_end (m : Np.ndarray2 A) (taxon : list Z) :
  Forall (fun j => (0 <= j < Z.of_nat (Np.ncols m))%Z) taxon ->
  derived_allele_freq m (map (fun j => (j - Z.of_nat (Np.ncols m))%Z) taxon) =
  derived_allele_freq m taxon.
Proof.
  intros Hv. unfold derived_allele_freq, Np.take_cols. rewrite length_map.
  assert (E : mapM (Np.normalize_index (Np.ncols m))
                (map (fun j => (j - Z.of_nat (Np.ncols m))%Z) taxon) =
              mapM (Np.normalize_index (Np.ncols m)) taxon).
  { induction Hv as [ | j taxon Hj _ IH]; [reflexivity | ].
    cbn [map mapM]. now rewrite normalize_index_from_end, IH. }
  now rewrite E.
Qed.

(** X19: when P1 and P2 are one and the same lineage, ABBA equals BABA and
    BAAA equals ABAA, provided the multiplication of the scalars is
    commutative. *)
Theorem site_patterns_same_lineage (m : Np.ndarray2 A) (P P3 : list Z) :
  (forall x y : A, (x * y)%S = (y * x)%S) ->
  match site_patterns m P P P3 with
  | Ok (abba, baba, _, baaa, abaa, _) => abba = baba /\ baaa = abaa
  | Raise e => e = IndexError
  end.
Proof.
  intros Hc. unfold site_patterns.
  destruct (valid_cols_dec (Np.ncols m) P) as [F | F];
    [ | now rewrite (derived_allele_freq_invalid m P F)].
  destruct (derived_allele_freq_total m P F) as [f ->]. cbn [bind].
  destruct (valid_cols_dec (Np.ncols m) P3) as [F3 | F3];
    [ | now rewrite (derived_allele_freq_invalid m P3 F3)].
  destruct (derived_allele_freq_total m P3 F3) as [f3 ->]. cbn [bind].
  rewrite (mul_comm_vec Hc (Np.rsub one f) f). now split.
Qed.

End MoreEdges.

Section OutOfReach.
Context {A : Type} `{Scalar A}.
Context {G : Type}.
Variable randint : Z -> G -> Z * G.

Lemma filter_none {X : Type} (f : X -> bool) (l : list X) :
  Forall (fun x => f x = false) l -> filter f l = [].
Proof.
  induction 1 as [ | x l Hx _ IH]; [reflexivity | ].
  cbn [filter]. now rewrite Hx.
Qed.

Lemma nothing_reachable (m : Np.ndarray2 A) (positions : list Z) :
  Forall (fun p => within_reach p = false) positions ->
  reachable_sites m positions = Np.mk (Np.ncols m) [] /\
  reachable_positions m positions = [].
Proof.
  intros Hp. unfold reachable_sites, reachable_positions.
  rewrite filter_none; [now split | ].
  apply Forall_forall. intros [p r] Hin. cbn [fst].
  rewrite Forall_forall in Hp. apply Hp. eapply in_combine_l. exact Hin.
Qed.

Lemma flat_map_nothing {X Y : Type} (l : list X) :
  flat_map (fun _ : X => @nil Y) l = [].
Proof. induction l as [ | x l IH]; [reflexivity | exact IH]. Qed.

Lemma gather_repeat (s : @patterns A) (n : nat) :
  gather (repeat s n) =
  let '(abba, baba, bbaa, baaa, abaa, aaba) := s in
  (repeat abba n, repeat baba n, repeat bbaa n,
   repeat baaa n, repeat abaa n, repeat aaba n).
Proof.
  destruct s as [[[[[abba baba] bbaa] baaa] abaa] aaba].
  unfold gather. induction n as [ | n IH]; [reflexivity | ].
  cbn [repeat map]. injection IH as -> -> -> -> -> ->. reflexivity.
Qed.

Lemma statistics_of_no_site (l : list (list Z)) (stats : list (@patterns A)) :
  Forall2 (fun starts st =>
             site_patterns (resampled_genome (Np.mk 3 []) [] starts)
               [0%Z] [1%Z] [2%Z] = Ok st) l stats ->
  stats = repeat (zero, zero, zero, zero, zero, zero) (length l).
Proof.
  induction 1 as [ | starts st l stats Hst _ IH]; [reflexivity | ].
  cbn [length repeat]. rewrite <- IH. f_equal.
  unfold resampled_genome, window_rows in Hst. cbn [Np.rows combine filter map] in Hst.
  rewrite flat_map_nothing in Hst. cbv in Hst. now injection Hst.
Qed.

(** X20: when no position lies in [0, 100,000,000] every window is empty:
    the driver raises nothing and each of the six arrays holds N zeros. *)
Theorem bootstrap_out_of_reach (m : Np.ndarray2 A) (positions : list Z)
  (N : Z) (g : G) :
  randint_in_range randint ->
  Np.ncols m = 3 -> length positions <= Np.nrows m ->
  Forall (fun p => within_reach p = false) positions ->
  genotype_matrix_bootstrap randint m positions N g =
  Ok ((repeat zero (Z.to_nat N), repeat zero (Z.to_nat N), repeat zero (Z.to_nat N),
       repeat zero (Z.to_nat N), repeat zero (Z.to_nat N), repeat zero (Z.to_nat N)),
      snd (draw_replicates randint (Z.to_nat N) g)).
Proof.
  intros R Ec El Hp.
  assert (E : genotype_matrix_bootstrap randint m positions N g =
              genotype_matrix_bootstrap randint (Np.mk 3 []) [] N g).
  { destruct (nothing_reachable m positions Hp) as [Em Ep].
    rewrite Ec in Em. rewrite <- Em, <- Ep. symmetry.
    unfold genotype_matrix_bootstrap.
    apply for_range_ext. now apply replicate_step_reachable. }
  rewrite E.
  destruct (replicates_spec randint (Np.mk 3 []) [] eq_refl eq_refl
              (Z.to_nat N) ([], [], [], [], [], []) g) as [stats [F Es]].
  rewrite arrays_app_nil in Es.
  apply statistics_of_no_site in F. rewrite draw_replicates_length in F.
  rewrite F, gather_repeat in Es. exact Es.
Qed.

End OutOfReach.

(** ** The further properties at concrete inputs *)

Lemma Qmult_comm_eq (x y : Q) : Qmult x y = Qmult y x.
Proof.
  destruct x as [a b], y as [c d]. unfold Qmult. cbn [Qnum Qden].
  now rewrite Z.mul_comm, Pos.mul_comm.
Qed.

Ltac in_range := repeat (apply Forall_cons; [simpl; lia | ]); apply Forall_nil.




Lemma site_patterns_exchange_P1_P2_example :
  site_patterns (A := Q) example_matrix [1%Z] [0%Z] [2%Z] =
  match site_patterns (A := Q) example_matrix [0%Z] [1%Z] [2%Z] with
  | Ok s => Ok (swap_P1_P2 s)
  | Raise e => Raise e
  end.
Proof.
  apply (@site_patterns_exchange_P1_P2 Q Q_scalar Qmult_comm_eq
           example_matrix [0%Z] [1%Z] [2%Z]).
Defined.

Lemma empty_lineage_patterns_nan_example :
  site_patterns (A := float) example_matrix [] [1%Z] [2%Z] =
  Ok (nan, nan, nan, nan, nan, nan).
Proof.
  apply (empty_lineage_patterns_nan example_matrix [] [1%Z] [2%Z]);
    [well_formed | discriminate | valid_cols | valid_cols | valid_cols
     | left; reflexivity].
Defined.

Lemma frequencies_within_range_example :
  exists f, derived_allele_freq dosages [0%Z; 1%Z] = Ok f /\
    Forall (fun x => 0 <= x <= 2)%Q f.
Proof.
  apply (frequencies_within_range 0 2 dosages [0%Z; 1%Z]);
    [well_formed | discriminate | valid_cols | ].
  repeat (apply Forall_cons;
          [repeat (apply Forall_cons; [split; discriminate | ]); apply Forall_nil | ]);
    apply Forall_nil.
Defined.

Lemma frequencies_individual_order_example :
  exists f f',
    derived_allele_freq (A := Q) example_matrix [0%Z; 1%Z] = Ok f /\
    derived_allele_freq (A := Q) example_matrix [1%Z; 0%Z] = Ok f' /\
    frequencies_eq f f'.
Proof.
  apply (frequencies_individual_order example_matrix [0%Z; 1%Z] [1%Z; 0%Z]);
    [well_formed | discriminate | valid_cols | apply perm_swap].
Defined.

Lemma site_patterns_concatenate_example :
  exists c sa sb sc,
    Np.concatenate (A := Q) example_matrix example_swapped = Ok c /\
    site_patterns (A := Q) example_matrix [0%Z] [1%Z] [2%Z] = Ok sa /\
    site_patterns example_swapped [0%Z] [1%Z] [2%Z] = Ok sb /\
    site_patterns c [0%Z] [1%Z] [2%Z] = Ok sc /\
    patterns_eq sc (patterns_add sa sb).
Proof.
  apply (site_patterns_concatenate example_matrix example_swapped [0%Z] [1%Z] [2%Z]);
    [well_formed | well_formed | reflexivity
     | discriminate | valid_cols | discriminate | valid_cols
     | discriminate | valid_cols].
Defined.

Lemma pattern_differences_example :
  exists f1 f2 f3 abba baba bbaa baaa abaa aaba,
    derived_allele_freq (A := Q) example_matrix [0%Z] = Ok f1 /\
    derived_allele_freq (A := Q) example_matrix [1%Z] = Ok f2 /\
    derived_allele_freq (A := Q) example_matrix [2%Z] = Ok f3 /\
    site_patterns (A := Q) example_matrix [0%Z] [1%Z] [2%Z] =
    Ok (abba, baba, bbaa, baaa, abaa, aaba) /\
    (abba - baba == pattern_sum (Np.nrows (A := Q) example_matrix) D_term f1 f2 f3 /\
     baaa - abaa == pattern_sum (Np.nrows (A := Q) example_matrix) D_anc_term f1 f2 f3)%Q.
Proof.
  apply (pattern_differences example_matrix [0%Z] [1%Z] [2%Z]);
    [well_formed
     | discriminate | valid_cols | discriminate | valid_cols
     | discriminate | valid_cols].
Defined.

Lemma binary_sums_nonnegative_example :
  exists abba baba bbaa baaa abaa aaba,
    site_patterns (A := Q) example_matrix [0%Z; 1%Z] [1%Z] [2%Z] =
    Ok (abba, baba, bbaa, baaa, abaa, aaba) /\
    (0 <= abba /\ 0 <= baba /\ 0 <= bbaa /\ 0 <= baaa /\ 0 <= abaa /\ 0 <= aaba)%Q.
Proof.
  apply (binary_sums_nonnegative example_matrix [0%Z; 1%Z] [1%Z] [2%Z]);
    [well_formed | exact example_binary
     | discriminate | valid_cols | discriminate | valid_cols
     | discriminate | valid_cols].
Defined.

Lemma bootstrap_raises_on_other_widths_example :
  genotype_matrix_bootstrap lcg_randint two_columns [10; 50000]%Z 1 42%Z =
  Raise ValueError.
Proof.
  apply (bootstrap_raises_on_other_widths lcg_randint two_columns [10; 50000]%Z 1 42%Z);
    [discriminate | cbv; lia | lia].
Defined.

Lemma bootstrap_without_replicates_example :
  genotype_matrix_bootstrap (A := Q) lcg_randint example_matrix example_positions
    (-1) 42%Z = Ok (no_arrays, 42%Z).
Proof.
  apply (bootstrap_without_replicates lcg_randint example_matrix example_positions
           (-1) 42%Z).
  lia.
Defined.

Lemma bootstrap_replicates_in_two_runs_example :
  genotype_matrix_bootstrap (A := Q) lcg_randint example_matrix example_positions
    (1 + 2) 42%Z =
  '(a1, g1) <- genotype_matrix_bootstrap lcg_randint example_matrix
                 example_positions 1 42%Z ;;
  '(a2, g2) <- genotype_matrix_bootstrap lcg_randint example_matrix
                 example_positions 2 g1 ;;
  Ok (arrays_app a1 a2, g2).
Proof.
  apply (bootstrap_replicates_in_two_runs lcg_randint example_matrix
           example_positions 1 2 42%Z); lia.
Defined.

Lemma bootstrap_raises_on_surplus_position_example :
  genotype_matrix_bootstrap (A := Q) lcg_randint example_matrix surplus_positions
    1 42%Z = Raise IndexError.
Proof.
  apply (bootstrap_raises_on_surplus_position lcg_randint example_matrix
           surplus_positions 1 42%Z 3 42%Z);
    [lia | reflexivity | cbv; lia | ].
  change (fst (lcg_randint 99900001 42)) with 42%Z. lia.
Defined.

Lemma bootstrap_ignores_unreachable_sites_example :
  genotype_matrix_bootstrap (A := Q) lcg_randint
    (reachable_sites example_matrix far_positions)
    (reachable_positions (A := Q) example_matrix far_positions) 2 42%Z =
  genotype_matrix_bootstrap lcg_randint example_matrix far_positions 2 42%Z.
Proof.
  apply (bootstrap_ignores_unreachable_sites lcg_randint example_matrix
           far_positions 2 42%Z);
    [exact lcg_in_range | cbv; lia].
Defined.

Section PathsExample.
Import Stdlib.Strings.String.

Lemma script_results_of_replicates_disjoint_example :
  ~ In "./seq_errors/bootstraps/Neanderthal/rep_id_7_abba.csv.gz"%string
      (Script.result_paths "Neanderthal"%string 8).
Proof.
  apply (script_results_of_replicates_disjoint "Neanderthal"%string 7 8
           "./seq_errors/bootstraps/Neanderthal/rep_id_7_abba.csv.gz"%string);
    [discriminate | left; reflexivity].
Defined.

End PathsExample.

Lemma derived_allele_freq_from_end_example :
  derived_allele_freq (A := Q) example_matrix
    (map (fun j => (j - Z.of_nat (Np.ncols (A := Q) example_matrix))%Z) [0%Z; 2%Z]) =
  derived_allele_freq example_matrix [0%Z; 2%Z].
Proof.
  apply (derived_allele_freq_from_end example_matrix [0%Z; 2%Z]). in_range.
Defined.

Lemma site_patterns_same_lineage_example :
  match site_patterns (A := Q) example_matrix [0%Z] [0%Z] [2%Z] with
  | Ok (abba, baba, _, baaa, abaa, _) => abba = baba /\ baaa = abaa
  | Raise e => e = IndexError
  end.
Proof.
  apply (@site_patterns_same_lineage Q Q_scalar example_matrix [0%Z] [2%Z]
           Qmult_comm_eq).
Defined.

Lemma bootstrap_out_of_reach_example :
  genotype_matrix_bootstrap (A := Q) lcg_randint example_matrix
    unreachable_positions 2 42%Z =
  Ok ((repeat zero (Z.to_nat 2), repeat zero (Z.to_nat 2), repeat zero (Z.to_nat 2),
       repeat zero (Z.to_nat 2), repeat zero (Z.to_nat 2), repeat zero (Z.to_nat 2)),
      snd (draw_replicates lcg_randint (Z.to_nat 2) 42%Z)).
Proof.
  apply (bootstrap_out_of_reach lcg_randint example_matrix unreachable_positions
           2 42%Z);
    [exact lcg_in_range | reflexivity | cbv; lia | ].
  repeat (apply Forall_cons; [reflexivity | ]); apply Forall_nil.
Defined.
